(** * Indicator pipeline of [app.py]: a shallow embedding and its properties

    The program reads daily bars of a security through [yfinance], derives
    returns, moving averages, RSI, Bollinger bands and two risk figures with
    [pandas], and serves them through two Flask routes.

    Numbers.  The source computes on IEEE doubles.  They are embedded as
    exact rationals ([Qc], canonical fractions with Leibniz equality)
    extended with the three special values [+inf], [-inf] and [NaN], whose
    propagation rules are those of IEEE arithmetic.  Rounding error and the
    sign of zero are not part of the embedding.  [numpy.sqrt] is a
    collaborator: it is a parameter of the definitions that use it. *)

From Stdlib Require Import ZArith QArith Qcanon Qround String Ascii List Bool Lia Lqa.
Import ListNotations.

Set Implicit Arguments.

Close Scope Q_scope.
Close Scope Qc_scope.

(** ** Extended rationals standing for Python and numpy floats *)

Module Float.

Inductive float : Type :=
| Fin (q : Qc)
| PInf
| NInf
| NaN.

Definition QcZ (z : Z) : Qc := Q2Qc (inject_Z z).
Definition QcN (n : nat) : Qc := QcZ (Z.of_nat n).
Definition ofZ (z : Z) : float := Fin (QcZ z).
Definition ofN (n : nat) : float := Fin (QcN n).

Definition sign (q : Qc) : comparison := Qccompare q (QcZ 0).

Definition inf_of (c : comparison) : float :=
  match c with Gt => PInf | Lt => NInf | Eq => NaN end.

Definition isnan (x : float) : bool :=
  match x with NaN => true | _ => false end.

Definition notna (x : float) : bool := negb (isnan x).

Definition fneg (x : float) : float :=
  match x with
  | Fin q => Fin (- q)%Qc
  | PInf => NInf
  | NInf => PInf
  | NaN => NaN
  end.

Definition fadd (x y : float) : float :=
  match x, y with
  | NaN, _ | _, NaN => NaN
  | Fin a, Fin b => Fin (a + b)%Qc
  | PInf, NInf | NInf, PInf => NaN
  | PInf, _ | _, PInf => PInf
  | NInf, _ | _, NInf => NInf
  end.

Definition fsub (x y : float) : float := fadd x (fneg y).

Definition fmul (x y : float) : float :=
  match x, y with
  | NaN, _ | _, NaN => NaN
  | Fin a, Fin b => Fin (a * b)%Qc
  | Fin a, PInf | PInf, Fin a => inf_of (sign a)
  | Fin a, NInf | NInf, Fin a => inf_of (CompOpp (sign a))
  | PInf, PInf | NInf, NInf => PInf
  | PInf, NInf | NInf, PInf => NInf
  end.

(** numpy division: a finite value over zero is an infinity of the sign of
    the numerator, zero over zero is NaN; nothing is raised. *)
Definition fdiv (x y : float) : float :=
  match x, y with
  | NaN, _ | _, NaN => NaN
  | Fin a, Fin b =>
      match sign b with
      | Eq => inf_of (sign a)
      | _ => Fin (a / b)%Qc
      end
  | Fin _, PInf | Fin _, NInf => Fin (QcZ 0)
  | PInf, Fin b => match sign b with Lt => NInf | _ => PInf end
  | NInf, Fin b => match sign b with Lt => PInf | _ => NInf end
  | _, _ => NaN
  end.

(** Comparisons: every comparison with NaN is false. *)
Definition fltb (x y : float) : bool :=
  match x, y with
  | NaN, _ | _, NaN => false
  | Fin a, Fin b => match Qccompare a b with Lt => true | _ => false end
  | NInf, NInf | PInf, _ => false
  | NInf, _ => true
  | Fin _, PInf => true
  | Fin _, NInf => false
  end.

Definition fgtb (x y : float) : bool := fltb y x.

Definition fleb (x y : float) : bool :=
  match x, y with
  | NaN, _ | _, NaN => false
  | Fin a, Fin b => match Qccompare a b with Gt => false | _ => true end
  | NInf, _ | _, PInf => true
  | _, _ => false
  end.

(** Truth value of a Python float: everything but zero (NaN included). *)
Definition truthy (x : float) : bool :=
  match x with
  | Fin q => match sign q with Eq => false | _ => true end
  | _ => true
  end.

Definition fsum (s : list float) : float := fold_right fadd (ofZ 0) s.

(** [numpy.sqrt], lifted from the non-negative rationals. *)
Definition fsqrt (sqrtq : Qc -> Qc) (x : float) : float :=
  match x with
  | Fin q => match sign q with Lt => NaN | _ => Fin (sqrtq q) end
  | PInf => PInf
  | _ => NaN
  end.

(** Round half to even on a rational. *)
Definition round_half_even (q : Q) : Z :=
  let f := Qfloor q in
  match Qcompare (q - inject_Z f)%Q (1 # 2)%Q with
  | Lt => f
  | Gt => (f + 1)%Z
  | Eq => if Z.even f then f else (f + 1)%Z
  end.

(** Python's [round(x, ndigits)]: NaN and the infinities are returned as
    they are. *)
Definition round (x : float) (ndigits : nat) : float :=
  match x with
  | Fin q =>
      let p := (10 ^ Z.of_nat ndigits)%Z in
      Fin (Q2Qc (inject_Z (round_half_even (q * inject_Z p)%Q) / inject_Z p)%Q)
  | _ => x
  end.

End Float.

Import Float.

Declare Scope float_scope.
Delimit Scope float_scope with F.
Bind Scope float_scope with float.
Infix "+" := fadd : float_scope.
Infix "-" := fsub : float_scope.
Infix "*" := fmul : float_scope.
Infix "/" := fdiv : float_scope.
Notation "- x" := (fneg x) : float_scope.

(** ** The pandas Series operations the program calls *)

Module Series.

Definition Series := list float.

(** [s.shift(1)] *)
Definition shift (s : Series) : Series :=
  match s with
  | [] => []
  | _ :: _ => NaN :: removelast s
  end.

(** Element-wise arithmetic of two aligned Series. *)
Fixpoint zip_with (f : float -> float -> float) (a b : Series) : Series :=
  match a, b with
  | x :: a', y :: b' => f x y :: zip_with f a' b'
  | _, _ => []
  end.

(** [s.diff()] is [s - s.shift(1)]. *)
Definition diff (s : Series) : Series := zip_with fsub s (shift s).

(** [s.pct_change()] is [s / s.shift(1) - 1]. *)
Definition pct_change (s : Series) : Series :=
  map (fun x => (x - ofZ 1)%F) (zip_with fdiv s (shift s)).

(** [s.dropna()] *)
Definition dropna (s : Series) : Series := filter notna s.

(** [s.clip(lower=l)] and [s.clip(upper=u)]: NaN stays NaN. *)
Definition clip_lower (l : float) (s : Series) : Series :=
  map (fun x => if fltb x l then l else x) s.

Definition clip_upper (u : float) (s : Series) : Series :=
  map (fun x => if fgtb x u then u else x) s.

Definition neg (s : Series) : Series := map fneg s.

(** [s.mean()], NaN skipped; NaN on nothing. *)
Definition mean (s : Series) : float :=
  let v := dropna s in
  match v with
  | [] => NaN
  | _ => (fsum v / ofN (length v))%F
  end.

(** [s.std()]: the sample standard deviation ([ddof = 1]), NaN skipped; NaN
    when fewer than two values remain. *)
Definition var (s : Series) : float :=
  let v := dropna s in
  let count := length v in
  if (count <=? 1)%nat then NaN
  else
    let avg := (fsum v / ofN count)%F in
    (fsum (map (fun x => ((avg - x) * (avg - x))%F) v) / ofN (count - 1))%F.

Definition std (sqrtq : Qc -> Qc) (s : Series) : float := fsqrt sqrtq (var s).

(** The trailing window of [s.rolling(w)] at position [i]: the values at
    positions [max 0 (i + 1 - w) .. i]. *)
Definition window (w i : nat) (s : Series) : Series :=
  skipn (i + 1 - w) (firstn (i + 1) s).

(** [s.rolling(w).agg()], with pandas' default [min_periods = w]: NaN unless
    the window holds [w] values that are not NaN. *)
Definition rolling (w : nat) (agg : Series -> float) (s : Series) : Series :=
  map (fun i =>
         let obs := dropna (window w i s) in
         if (length obs <? w)%nat then NaN else agg obs)
      (seq 0 (length s)).

Definition rolling_mean (w : nat) (s : Series) : Series := rolling w mean s.

Definition rolling_std (sqrtq : Qc -> Qc) (w : nat) (s : Series) : Series :=
  rolling w (std sqrtq) s.

(** [s.max()] and [s.min()], NaN skipped; NaN on nothing. *)
Definition fmax (x y : float) : float := if fltb x y then y else x.
Definition fmin (x y : float) : float := if fltb y x then y else x.

Definition max (s : Series) : float :=
  match dropna s with
  | [] => NaN
  | x :: v => fold_left fmax v x
  end.

Definition min (s : Series) : float :=
  match dropna s with
  | [] => NaN
  | x :: v => fold_left fmin v x
  end.

(** [s.iloc[-1]], [s.iloc[-2]] and [s.iloc[0]] on a Series that has them. *)
Definition iloc_last (s : Series) : float := last s NaN.
Definition iloc_last2 (s : Series) : float := last (removelast s) NaN.
Definition iloc_first (s : Series) : float := hd NaN s.

End Series.

(** ** The string methods the routes call

    A text is a sequence of 8-bit characters.  On the characters below 128
    (ASCII) the methods are those of Python's [str]; Python knows further
    white space and letters beyond ASCII, and [ascii_only] below marks the
    texts on which the two agree. *)

Module Str.

Definition upper_ascii (c : ascii) : ascii :=
  let n := nat_of_ascii c in
  if ((97 <=? n) && (n <=? 122))%nat then ascii_of_nat (n - 32) else c.

(** [s.upper()] *)
Fixpoint upper (s : string) : string :=
  match s with
  | EmptyString => EmptyString
  | String c s' => String (upper_ascii c) (upper s')
  end.

Definition isspace (c : ascii) : bool :=
  let n := nat_of_ascii c in
  (((9 <=? n) && (n <=? 13)) || ((28 <=? n) && (n <=? 32)))%nat.

Fixpoint lstrip (s : string) : string :=
  match s with
  | EmptyString => EmptyString
  | String c s' => if isspace c then lstrip s' else s
  end.

Fixpoint rstrip (s : string) : string :=
  match s with
  | EmptyString => EmptyString
  | String c s' =>
      match rstrip s' with
      | EmptyString => if isspace c then EmptyString else String c EmptyString
      | r => String c r
      end
  end.

(** [s.strip()] *)
Definition strip (s : string) : string := rstrip (lstrip s).

(** [s.split(sep)] for a one-character separator. *)
Fixpoint split (sep : ascii) (s : string) : list string :=
  match s with
  | EmptyString => [EmptyString]
  | String c s' =>
      if Ascii.eqb c sep then EmptyString :: split sep s'
      else
        match split sep s' with
        | [] => [String c EmptyString]
        | h :: t => String c h :: t
        end
  end.

(** Truth value of a Python string. *)
Definition nonempty (s : string) : bool :=
  match s with EmptyString => false | _ => true end.

End Str.

(** ** The data the program works on *)

(** One row of the frame [stock.history] returns. *)
Record Bar : Type := {
  Open : Qc;
  High : Qc;
  Low : Qc;
  Close : Qc;
  Volume : Z
}.

Definition col (f : Bar -> Qc) (hist : list Bar) : Series.Series :=
  map (fun b => Fin (f b)) hist.

(** A call that returns or raises. *)
Inductive result (A : Type) : Type :=
| Ok (a : A)
| Raise (msg : string).

Arguments Ok {A} a.
Arguments Raise {A} msg.

(** The series drawn on the price chart. *)
Record Chart : Type := {
  chart_close : Series.Series;
  chart_MA50 : Series.Series;
  chart_MA200 : Series.Series;
  chart_BB_Upper : Series.Series;
  chart_BB_Lower : Series.Series
}.

(** The dictionary [fetch_stock_data] returns (the fields read from
    [stock.info] are kept together as [snap_info]). *)
Record Snapshot (Info : Type) : Type := {
  snap_ticker : string;
  snap_info : Info;
  snap_current_price : float;
  snap_price_change : float;
  snap_price_change_pct : float;
  snap_w52_high : float;
  snap_w52_low : float;
  snap_volatility : float;
  snap_sharpe_ratio : float;
  snap_rsi : float;
  snap_volume : Z;
  snap_avg_volume : Z;
  snap_chart : Chart
}.

(** One [go.Scatter] of the comparison chart. *)
Record Trace : Type := {
  trace_name : string;
  trace_y : Series.Series
}.

(** The JSON body of a response. *)
Inductive Body (Info : Type) : Type :=
| ErrorJson (error : string)
| SnapshotJson (s : Snapshot Info)
| CompareJson (traces : list Trace).

Arguments ErrorJson {Info} error.
Arguments SnapshotJson {Info} s.
Arguments CompareJson {Info} traces.

(** The JSON body of a request: an object whose three fields are absent
    ([None]) or hold a string.  A field that holds [null] or a value that is
    no string is not represented. *)
Record Request : Type := {
  req_ticker : option string;
  req_tickers : option string;
  req_period : option string
}.

(** ** [fetch_stock_data]: the metrics, as functions of the frame's columns *)

Section Metrics.

Variable np_sqrt : Qc -> Qc.

(** Price data (lines 24-27). *)
Definition current_price (close : Series.Series) : float :=
  Series.iloc_last close.

Definition prev_price (close : Series.Series) : float :=
  if (1 <? length close)%nat then Series.iloc_last2 close
  else current_price close.

Definition price_change (close : Series.Series) : float :=
  (current_price close - prev_price close)%F.

Definition price_change_pct (close : Series.Series) : float :=
  if truthy (prev_price close)
  then (price_change close / prev_price close * ofZ 100)%F
  else ofZ 0.

(** Returns (lines 30-31). *)
Definition Daily_Return (close : Series.Series) : Series.Series :=
  Series.pct_change close.

Definition returns (close : Series.Series) : Series.Series :=
  Series.dropna (Daily_Return close).

(** Risk metrics (lines 34-35), on the Series of returns. *)
Definition volatility_of (returns : Series.Series) : float :=
  (Series.std np_sqrt returns * Fin (np_sqrt (QcZ 252)) * ofZ 100)%F.

Definition sharpe_of (returns : Series.Series) : float :=
  if fgtb (Series.std np_sqrt returns) (ofZ 0)
  then (Series.mean returns * ofZ 252
        / (Series.std np_sqrt returns * Fin (np_sqrt (QcZ 252))))%F
  else ofZ 0.

Definition volatility (close : Series.Series) : float :=
  volatility_of (returns close).

Definition sharpe (close : Series.Series) : float :=
  sharpe_of (returns close).

(** Moving averages (lines 38-39). *)
Definition MA50 (close : Series.Series) : Series.Series :=
  Series.rolling_mean 50 close.

Definition MA200 (close : Series.Series) : Series.Series :=
  Series.rolling_mean 200 close.

(** RSI, 14 periods (lines 42-46). *)
Definition delta (close : Series.Series) : Series.Series := Series.diff close.

Definition gain (close : Series.Series) : Series.Series :=
  Series.rolling_mean 14 (Series.clip_lower (ofZ 0) (delta close)).

Definition loss (close : Series.Series) : Series.Series :=
  Series.rolling_mean 14 (Series.neg (Series.clip_upper (ofZ 0) (delta close))).

Definition rs (close : Series.Series) : Series.Series :=
  Series.zip_with fdiv (gain close) (loss close).

Definition rsi_series (close : Series.Series) : Series.Series :=
  map (fun r => (ofZ 100 - ofZ 100 / (ofZ 1 + r))%F) (rs close).

Definition rsi (close : Series.Series) : float :=
  Series.iloc_last (rsi_series close).

(** Bollinger bands, 20 periods (lines 49-52). *)
Definition BB_Mid (close : Series.Series) : Series.Series :=
  Series.rolling_mean 20 close.

Definition BB_Std (close : Series.Series) : Series.Series :=
  Series.rolling_std np_sqrt 20 close.

Definition BB_Upper (close : Series.Series) : Series.Series :=
  Series.zip_with fadd (BB_Mid close) (map (fmul (ofZ 2)) (BB_Std close)).

Definition BB_Lower (close : Series.Series) : Series.Series :=
  Series.zip_with fsub (BB_Mid close) (map (fmul (ofZ 2)) (BB_Std close)).

(** 52-week high and low (lines 55-56). *)
Definition w52_high (hist : list Bar) : float := Series.max (col High hist).
Definition w52_low (hist : list Bar) : float := Series.min (col Low hist).

(** [int(hist["Volume"].iloc[-1])] and [int(hist["Volume"].mean())]. *)
Definition volume (hist : list Bar) : Z := last (map Volume hist) 0%Z.

Definition avg_volume (hist : list Bar) : Z :=
  Z.quot (fold_right Z.add 0%Z (map Volume hist)) (Z.of_nat (length hist)).

End Metrics.

(** ** The two functions and the two routes *)

Section App.

Variable np_sqrt : Qc -> Qc.

(** What [stock.info] gives, and the two calls into [yfinance]:
    [history ticker period] is [yf.Ticker(ticker).history(period=period)],
    [stock_info ticker] is [yf.Ticker(ticker).info]; either may raise. *)
Variable Info : Type.
Variable history : string -> string -> result (list Bar).
Variable stock_info : string -> result Info.

Definition build_snapshot (ticker : string) (info : Info) (hist : list Bar)
  : Snapshot Info :=
  let close := col Close hist in
  {| snap_ticker := Str.upper ticker;
     snap_info := info;
     snap_current_price := round (current_price close) 2;
     snap_price_change := round (price_change close) 2;
     snap_price_change_pct := round (price_change_pct close) 2;
     snap_w52_high := round (w52_high hist) 2;
     snap_w52_low := round (w52_low hist) 2;
     snap_volatility := round (volatility np_sqrt close) 2;
     snap_sharpe_ratio := round (sharpe np_sqrt close) 3;
     snap_rsi := round (rsi close) 1;
     snap_volume := volume hist;
     snap_avg_volume := avg_volume hist;
     snap_chart :=
       {| chart_close := close;
          chart_MA50 := MA50 close;
          chart_MA200 := MA200 close;
          chart_BB_Upper := BB_Upper np_sqrt close;
          chart_BB_Lower := BB_Lower np_sqrt close |} |}.

(** [fetch_stock_data]: [Ok None] is the [return None] of line 19. *)
Definition fetch_stock_data (ticker period : string)
  : result (option (Snapshot Info)) :=
  match history ticker period with
  | Raise e => Raise e
  | Ok [] => Ok None
  | Ok hist =>
      match stock_info ticker with
      | Raise e => Raise e
      | Ok info => Ok (Some (build_snapshot ticker info hist))
      end
  end.

(** Line 143. *)
Definition norm (close : Series.Series) : Series.Series :=
  map (fun x => ((x / Series.iloc_first close - ofZ 1) * ofZ 100)%F) close.

(** One turn of the loop of [compare_stocks] (lines 139-146). *)
Definition compare_step (period : string) (traces : list Trace)
  (ticker : string) : list Trace :=
  match history ticker period with
  | Raise _ => traces
  | Ok [] => traces
  | Ok hist =>
      traces ++ [{| trace_name := Str.upper ticker;
                    trace_y := norm (col Close hist) |}]
  end.

(** [compare_stocks]: the traces handed to the figure. *)
Definition compare_stocks (tickers : list string) (period : string)
  : list Trace :=
  fold_left (compare_step period) tickers [].

Definition get_period (data : Request) : string :=
  match req_period data with Some p => p | None => "1y"%string end.

(** [(data.get("ticker") or "").strip().upper()] *)
Definition get_ticker (data : Request) : string :=
  Str.upper (Str.strip (match req_ticker data with
                        | Some t => t
                        | None => EmptyString
                        end)).

(** The route [/analyze]: body and HTTP status. *)
Definition analyze (data : Request) : Body Info * nat :=
  let ticker := get_ticker data in
  let period := get_period data in
  if negb (Str.nonempty ticker) then
    (ErrorJson "No ticker provided", 400)
  else
    match fetch_stock_data ticker period with
    | Raise e => (ErrorJson e, 500)
    | Ok None =>
        (ErrorJson ("No data found for '" ++ ticker
                    ++ "'. Check the symbol and try again.")%string, 404)
    | Ok (Some result) => (SnapshotJson result, 200)
    end.

(** The route [/compare]. *)
Definition compare (data : Request) : Body Info * nat :=
  let raw := match req_tickers data with
             | Some r => r
             | None => EmptyString
             end in
  let tickers :=
    map (fun t => Str.upper (Str.strip t))
        (filter (fun t => Str.nonempty (Str.strip t)) (Str.split "," raw)) in
  let period := get_period data in
  if match tickers with [] => true | _ => false end then
    (ErrorJson "No tickers provided", 400)
  else
    (CompareJson (compare_stocks tickers period), 200).

End App.

(** ** Notions used in the statements *)

(** The arithmetic mean of rationals. *)
Definition Qc_sum (l : list Qc) : Qc := fold_right Qcplus (QcZ 0) l.

Definition arithmetic_mean (l : list Qc) : Qc :=
  (Qc_sum l / QcN (length l))%Qc.

(** [closes[a..b]], both ends included. *)
Definition slice (a b : nat) (l : list Qc) : list Qc :=
  firstn (b + 1 - a) (skipn a l).

(** The tickers of a comparison whose fetch returned bars, and their
    traces. *)
Definition usable (history : string -> string -> result (list Bar))
  (period ticker : string) : bool :=
  match history ticker period with
  | Ok (_ :: _) => true
  | _ => false
  end.

Definition bars_of (history : string -> string -> result (list Bar))
  (period ticker : string) : list Bar :=
  match history ticker period with
  | Ok hist => hist
  | Raise _ => []
  end.

Definition trace_of (history : string -> string -> result (list Bar))
  (period ticker : string) : Trace :=
  {| trace_name := Str.upper ticker;
     trace_y := norm (col Close (bars_of history period ticker)) |}.

(** Consecutive pairs of a list, each with the value before it: what
    [s op s.shift(1)] computes after its first position. *)
Fixpoint pairs (A B : Type) (f : A -> A -> B) (p : A) (l : list A) : list B :=
  match l with
  | [] => []
  | y :: l' => f y p :: pairs f y l'
  end.

(** The return between two consecutive closes. *)
Definition pct (y p : Qc) : Qc := (y / p - QcZ 1)%Qc.

(** What a square root can be: NaN, [+inf], or a non-negative number. *)
Definition root_like (s : float) : Prop :=
  s = NaN \/ s = PInf \/ exists q, s = Fin q /\ (QcZ 0 <= q)%Qc.

(** The RSI as a function of the relative strength [rs]. *)
Definition rsi_of_rs (r : float) : float :=
  (ofZ 100 - ofZ 100 / (ofZ 1 + r))%F.

(** The rise and the fall of one delta, as [clip] leaves them. *)
Definition up (d : Qc) : Qc :=
  match Qccompare d (QcZ 0) with Lt => QcZ 0 | _ => d end.

Definition down (d : Qc) : Qc :=
  (- match Qccompare (QcZ 0) d with Lt => QcZ 0 | _ => d end)%Qc.

(** The deltas of a list of closes: [closes[k+1] - closes[k]] at position [k]. *)
Definition deltas (closes : list Qc) : list Qc :=
  match closes with
  | [] => []
  | c :: l => pairs Qcminus c l
  end.

(** The [w] values before position [i]. *)
Definition trailing (w i : nat) (X : list Qc) : list Qc :=
  skipn (i - w) (firstn i X).

(** The two rolling means behind the RSI at position [i]. *)
Definition mean_gain (closes : list Qc) (i : nat) : Qc :=
  arithmetic_mean (trailing 14 i (map up (deltas closes))).

Definition mean_loss (closes : list Qc) (i : nat) : Qc :=
  arithmetic_mean (trailing 14 i (map down (deltas closes))).

(** ** The request parsing of the routes *)

(** A text of ASCII characters only. *)
Fixpoint ascii_only (s : string) : bool :=
  match s with
  | EmptyString => true
  | String c s' => (nat_of_ascii c <? 128)%nat && ascii_only s'
  end.

(** A string of white space only (the empty one included). *)
Fixpoint blank (s : string) : bool :=
  match s with
  | EmptyString => true
  | String c s' => Str.isspace c && blank s'
  end.

(** No white space at either end. *)
Definition starts_clean (s : string) : bool :=
  match s with
  | EmptyString => true
  | String c _ => negb (Str.isspace c)
  end.

Fixpoint ends_clean (s : string) : bool :=
  match s with
  | EmptyString => true
  | String c EmptyString => negb (Str.isspace c)
  | String _ s' => ends_clean s'
  end.

(** The characters of a string. *)
Fixpoint occurs (a : ascii) (s : string) : bool :=
  match s with
  | EmptyString => false
  | String c s' => Ascii.eqb c a || occurs a s'
  end.

Definition is_lower (c : ascii) : bool :=
  let n := nat_of_ascii c in ((97 <=? n) && (n <=? 122))%nat.

Fixpoint has_lower (s : string) : bool :=
  match s with
  | EmptyString => false
  | String c s' => is_lower c || has_lower s'
  end.

(** [sep.join(pieces)] for a one-character separator. *)
Fixpoint join (sep : ascii) (pieces : list string) : string :=
  match pieces with
  | [] => EmptyString
  | [p] => p
  | p :: rest => (p ++ String sep (join sep rest))%string
  end.

(** Line 196: the ticker list of a comparison request. *)
Definition parse_tickers (raw : string) : list string :=
  map (fun t => Str.upper (Str.strip t))
      (filter (fun t => Str.nonempty (Str.strip t)) (Str.split "," raw)).

(** [data.get("ticker") or ""] and [data.get("tickers", "")] *)
Definition ticker_text (data : Request) : string :=
  match req_ticker data with Some t => t | None => EmptyString end.

Definition tickers_text (data : Request) : string :=
  match req_tickers data with Some r => r | None => EmptyString end.

(** ** Sample data *)

(** A square root rounded down to six decimals, standing for [numpy.sqrt]
    where a concrete one is needed. *)
Definition approx_sqrt (q : Qc) : Qc :=
  Q2Qc (inject_Z (Z.sqrt (Qfloor (q * inject_Z (10 ^ 12))%Q))
        / inject_Z (10 ^ 6))%Q.

Definition closes_of (l : list Z) : list Qc := map QcZ l.

(** Fifteen equal closes. *)
Definition flat15 : list Qc := repeat (QcZ 12) 15.

(** Sixteen equal closes. *)
Definition flat16 : list Qc := repeat (QcZ 100) 16.

(** Closes [10, 11, 12, 12, ..., 12]: no loss in the trailing window. *)
Definition rising15 : list Qc := QcZ 10 :: QcZ 11 :: repeat (QcZ 12) 13.

(** Twenty closes [1, 2, ..., 20]. *)
Definition ramp20 : list Qc := map QcN (seq 1 20).

(** The closes [1, 2, ..., 210]: long enough for both moving averages. *)
Definition ramp210 : list Qc := map QcN (seq 1 210).

Definition sample_bar (c : Z) : Bar :=
  {| Open := QcZ c; High := QcZ c; Low := QcZ c; Close := QcZ c;
     Volume := 1000 |}.

(** A data source that knows one ticker, returns nothing for another and
    fails on every other one. *)
Definition sample_history (ticker period : string) : result (list Bar) :=
  if String.eqb ticker "AAA" then Ok [sample_bar 100; sample_bar 110; sample_bar 121]
  else if String.eqb ticker "ZZZZ" then Ok []
  else Raise "lookup failed".

Definition sample_info (ticker : string) : result unit := Raise "no profile".


(** Closes [20, 19, 18, 18, ..., 18]: no gain in the trailing window. *)
Definition falling15 : list Qc := QcZ 20 :: QcZ 19 :: repeat (QcZ 18) 13.

Definition sample_request (ticker : string) : Request :=
  {| req_ticker := Some ticker; req_tickers := None; req_period := None |}.

Definition sample_comparison (tickers : string) : Request :=
  {| req_ticker := None; req_tickers := Some tickers; req_period := None |}.

Definition sample_bars : list Bar :=
  [sample_bar 100; sample_bar 110; sample_bar 121].

(** ** Proof automation *)

(** Turns a goal on canonical rationals into one on [Q], where [lra]
    works. *)
Ltac qc2q :=
  unfold Qcle, Qclt, Qcminus, Qcdiv in *;
  unfold Qcplus, Qcmult, Qcopp, Qcinv, QcN, QcZ in *;
  unfold Q2Qc in *; cbn [this] in *;
  rewrite ?Qred_correct in *.

(** Turns the outcome of a comparison on [Q] into the order it stands for. *)
Ltac cmp_fact H :=
  match type of H with
  | _ = Eq => apply (proj2 (Qeq_alt _ _)) in H
  | _ = Lt => apply (proj2 (Qlt_alt _ _)) in H
  | _ = Gt => apply (proj2 (Qgt_alt _ _)) in H
  end.

(** Decides a fact about one character by trying all of them. *)
Ltac ascii_cases c :=
  destruct c as [[] [] [] [] [] [] [] []]; vm_compute; try reflexivity;
  try discriminate; auto.

(** Walks through the positions of a 14-period window of a sample. *)
Ltac window_cases j :=
  do 15 (destruct j as [|j]; [try lia; vm_compute; try reflexivity;
                               try discriminate|]); lia.

(** * Properties *)

(** ** Rationals and the extended arithmetic *)

Lemma sign_lt (q : Qc) : sign q = Lt <-> (q < QcZ 0)%Qc.
Proof. unfold sign. symmetry. apply Qclt_alt. Qed.

Lemma sign_gt (q : Qc) : sign q = Gt <-> (QcZ 0 < q)%Qc.
Proof. unfold sign. symmetry. apply (Qcgt_alt q (QcZ 0)). Qed.

Lemma sign_eq (q : Qc) : sign q = Eq <-> q = QcZ 0.
Proof. unfold sign. symmetry. apply Qceq_alt. Qed.

Lemma QcN_pos (n : nat) : (0 < n)%nat -> (QcZ 0 < QcN n)%Qc.
Proof. intros H. qc2q. unfold Qlt. simpl. lia. Qed.

Lemma fdiv_Fin_pos (a b : Qc) :
  (QcZ 0 < b)%Qc -> (Fin a / Fin b)%F = Fin (a / b)%Qc.
Proof. intros H. apply sign_gt in H. unfold fdiv. now rewrite H. Qed.

Lemma fdiv_Fin_nonzero (a b : Qc) :
  b <> QcZ 0 -> (Fin a / Fin b)%F = Fin (a / b)%Qc.
Proof.
  intros H. unfold fdiv. destruct (sign b) eqn:E; try reflexivity.
  apply sign_eq in E. contradiction.
Qed.

(** ** Moving averages *)

Lemma nth_error_map_seq (A : Type) (f : nat -> A) (n i : nat) :
  (i < n)%nat -> nth_error (map f (seq 0 n)) i = Some (f i).
Proof.
  intros H. rewrite nth_error_map.
  rewrite (nth_error_nth' _ 0%nat) by (rewrite length_seq; exact H).
  rewrite seq_nth by exact H. reflexivity.
Qed.

Lemma dropna_map_Fin (l : list Qc) : Series.dropna (map Fin l) = map Fin l.
Proof. induction l as [|c l IH]; simpl; [reflexivity|]. now rewrite IH. Qed.

Lemma fsum_map_Fin (l : list Qc) : fsum (map Fin l) = Fin (Qc_sum l).
Proof.
  induction l as [|c l IH]; [reflexivity|].
  change (fsum (map Fin (c :: l))) with (Fin c + fsum (map Fin l))%F.
  rewrite IH. reflexivity.
Qed.

Lemma mean_map_Fin (l : list Qc) :
  l <> [] -> Series.mean (map Fin l) = Fin (arithmetic_mean l).
Proof.
  intros Hl. unfold Series.mean. rewrite dropna_map_Fin.
  destruct l as [|c l]; [contradiction|].
  change (map Fin (c :: l)) with (Fin c :: map Fin l) at 1.
  cbv iota. rewrite fsum_map_Fin, length_map.
  unfold ofN. rewrite fdiv_Fin_pos by (apply QcN_pos; simpl; lia).
  reflexivity.
Qed.

Lemma window_map_Fin (w i : nat) (l : list Qc) :
  Series.window w i (map Fin l) = map Fin (skipn (i + 1 - w) (firstn (i + 1) l)).
Proof. unfold Series.window. now rewrite firstn_map, skipn_map. Qed.

Lemma window_slice (w i : nat) (l : list Qc) :
  (w - 1 <= i)%nat -> (1 <= w)%nat ->
  skipn (i + 1 - w) (firstn (i + 1) l) = slice (i + 1 - w) i l.
Proof.
  intros H1 H2. unfold slice. rewrite firstn_skipn_comm.
  f_equal. f_equal. lia.
Qed.

Lemma window_length (w i : nat) (l : list Qc) :
  (i < length l)%nat ->
  length (skipn (i + 1 - w) (firstn (i + 1) l)) = Nat.min w (i + 1).
Proof. intros H. rewrite length_skipn, length_firstn. lia. Qed.

(** [rolling(w).mean()] at position [i]: the arithmetic mean of
    [closes[i-w+1..i]] once [i >= w-1], NaN before that. *)
Lemma rolling_mean_window (w : nat) (closes : list Qc) (i : nat) :
  (1 <= w)%nat -> (i < length closes)%nat ->
  ((w - 1 <= i)%nat ->
   nth_error (Series.rolling_mean w (map Fin closes)) i
   = Some (Fin (arithmetic_mean (slice (i + 1 - w) i closes))))
  /\ ((i < w - 1)%nat ->
      nth_error (Series.rolling_mean w (map Fin closes)) i = Some NaN).
Proof.
  intros Hw Hi.
  unfold Series.rolling_mean, Series.rolling.
  rewrite nth_error_map_seq by (now rewrite length_map).
  rewrite window_map_Fin, dropna_map_Fin, length_map, window_length by exact Hi.
  split; intros H.
  - replace (Nat.min w (i + 1) <? w)%nat with false
      by (symmetry; apply Nat.ltb_ge; lia).
    rewrite window_slice by lia.
    rewrite mean_map_Fin; [reflexivity|].
    intros E. apply (f_equal (@length Qc)) in E.
    rewrite <- window_slice, window_length in E by lia. simpl in E. lia.
  - replace (Nat.min w (i + 1) <? w)%nat with true
      by (symmetry; apply Nat.ltb_lt; lia).
    reflexivity.
Qed.

(** C4: the two moving averages of the program, [MA50] (line 38) and
    [MA200] (line 39), hold at position [i] the arithmetic mean of the 50,
    respectively 200, closes [closes[i-49..i]], [closes[i-199..i]] once that
    many closes exist, and the marker NaN before that (never a number
    there, so neither 0 nor the mean of a shorter window); the rolling mean
    they are made of does so for every window [w >= 1]. *)
Theorem moving_averages_are_trailing_means (closes : list Qc) (i : nat) :
  (i < length closes)%nat ->
  ((49 <= i)%nat ->
   nth_error (MA50 (map Fin closes)) i
   = Some (Fin (arithmetic_mean (slice (i - 49) i closes))))
  /\ ((i < 49)%nat -> nth_error (MA50 (map Fin closes)) i = Some NaN)
  /\ ((199 <= i)%nat ->
      nth_error (MA200 (map Fin closes)) i
      = Some (Fin (arithmetic_mean (slice (i - 199) i closes))))
  /\ ((i < 199)%nat -> nth_error (MA200 (map Fin closes)) i = Some NaN)
  /\ (forall w : nat, (1 <= w)%nat ->
      ((w - 1 <= i)%nat ->
       nth_error (Series.rolling_mean w (map Fin closes)) i
       = Some (Fin (arithmetic_mean (slice (i + 1 - w) i closes))))
      /\ ((i < w - 1)%nat ->
          nth_error (Series.rolling_mean w (map Fin closes)) i = Some NaN)).
Proof.
  intros Hi.
  assert (G : forall w : nat, (1 <= w)%nat ->
      ((w - 1 <= i)%nat ->
       nth_error (Series.rolling_mean w (map Fin closes)) i
       = Some (Fin (arithmetic_mean (slice (i + 1 - w) i closes))))
      /\ ((i < w - 1)%nat ->
          nth_error (Series.rolling_mean w (map Fin closes)) i = Some NaN)).
  { intros w Hw. exact (rolling_mean_window closes Hw Hi). }
  unfold MA50, MA200.
  destruct (G 50%nat ltac:(lia)) as [A50 B50].
  destruct (G 200%nat ltac:(lia)) as [A200 B200].
  split; [|split; [|split; [|split]]].
  - intros H. replace (i - 49)%nat with (i + 1 - 50)%nat by lia. apply A50. lia.
  - intros H. apply B50. lia.
  - intros H. replace (i - 199)%nat with (i + 1 - 200)%nat by lia. apply A200. lia.
  - intros H. apply B200. lia.
  - exact G.
Qed.

(** ** Returns *)

Lemma zip_with_shift (f : float -> float -> float) (l : Series.Series) (p : float) :
  Series.zip_with f l (p :: removelast l) = pairs f p l.
Proof.
  revert p. induction l as [|y l IH]; intros p; [reflexivity|].
  destruct l as [|z l]; [reflexivity|].
  change (removelast (y :: z :: l)) with (y :: removelast (z :: l)).
  cbn [Series.zip_with pairs]. f_equal. apply IH.
Qed.

Lemma zip_with_shift_cons (f : float -> float -> float) (x : float) (l : Series.Series) :
  Series.zip_with f (x :: l) (Series.shift (x :: l)) = f x NaN :: pairs f x l.
Proof. unfold Series.shift. now rewrite zip_with_shift. Qed.

Lemma pairs_fdiv_pos (p : Qc) (l : list Qc) :
  (QcZ 0 < p)%Qc -> Forall (fun c => (QcZ 0 < c)%Qc) l ->
  map (fun x => (x - ofZ 1)%F) (pairs fdiv (Fin p) (map Fin l))
  = map Fin (pairs pct p l).
Proof.
  intros Hp Hl. revert p Hp. induction Hl as [|y l Hy Hl IH]; intros p Hp.
  - reflexivity.
  - cbn [map pairs]. rewrite fdiv_Fin_pos by exact Hp.
    rewrite IH by exact Hy. reflexivity.
Qed.

Lemma returns_positive (c : Qc) (l : list Qc) :
  Forall (fun c => (QcZ 0 < c)%Qc) (c :: l) ->
  returns (map Fin (c :: l)) = map Fin (pairs pct c l).
Proof.
  intros H. inversion H as [|? ? Hc Hl]; subst.
  unfold returns, Daily_Return, Series.pct_change.
  change (map Fin (c :: l)) with (Fin c :: map Fin l).
  rewrite zip_with_shift_cons. cbn [map].
  rewrite pairs_fdiv_pos by assumption.
  change (Fin c / NaN - ofZ 1)%F with NaN.
  unfold Series.dropna at 1. cbn [filter notna isnan negb].
  apply dropna_map_Fin.
Qed.

Lemma pairs_length (A B : Type) (f : A -> A -> B) (p : A) (l : list A) :
  length (pairs f p l) = length l.
Proof. revert p. induction l; intros; simpl; auto. Qed.

Lemma pairs_nth_error (A B : Type) (f : A -> A -> B) (d p : A) (l : list A) (j : nat) :
  (j < length l)%nat ->
  nth_error (pairs f p l) j = Some (f (nth (S j) (p :: l) d) (nth j (p :: l) d)).
Proof.
  revert p j. induction l as [|y l IH]; intros p j H; simpl in H; [lia|].
  destruct j as [|j]; [reflexivity|].
  cbn [pairs nth_error]. rewrite IH by lia. reflexivity.
Qed.

(** C5: for a non-empty series of [n] positive closes the returns are [n-1]
    values, the one at position [i-1] being [close[i]/close[i-1] - 1]; one
    bar gives no return. *)
Theorem returns_of_closes (closes : list Qc) :
  closes <> [] ->
  Forall (fun c => (QcZ 0 < c)%Qc) closes ->
  length (returns (map Fin closes)) = (length closes - 1)%nat
  /\ (forall i, (1 <= i < length closes)%nat ->
        nth_error (returns (map Fin closes)) (i - 1)
        = Some (Fin (nth i closes (QcZ 0) / nth (i - 1) closes (QcZ 0) - QcZ 1)%Qc))
  /\ (length closes = 1%nat -> returns (map Fin closes) = []).
Proof.
  intros Hne Hpos. destruct closes as [|c l]; [contradiction|].
  rewrite returns_positive by exact Hpos.
  split; [|split].
  - rewrite length_map, pairs_length. simpl. lia.
  - intros i Hi. simpl in Hi. rewrite nth_error_map.
    rewrite (pairs_nth_error pct (QcZ 0)) by lia.
    replace (S (i - 1)) with i by lia. reflexivity.
  - intros H. destruct l; [reflexivity|discriminate].
Qed.

(** ** Comparative normalisation *)

Lemma norm_cons (c0 : Qc) (rest : list Qc) :
  c0 <> QcZ 0 ->
  norm (map Fin (c0 :: rest))
  = map (fun c => Fin ((c / c0 - QcZ 1) * QcZ 100)%Qc) (c0 :: rest).
Proof.
  intros H0. unfold norm.
  change (Series.iloc_first (map Fin (c0 :: rest))) with (Fin c0).
  rewrite map_map. apply map_ext. intros c.
  rewrite fdiv_Fin_nonzero by exact H0. reflexivity.
Qed.

Lemma scaled_ratio (k c c0 : Qc) :
  k <> QcZ 0 -> c0 <> QcZ 0 ->
  ((k * c / (k * c0) - QcZ 1) * QcZ 100 = (c / c0 - QcZ 1) * QcZ 100)%Qc.
Proof.
  intros Hk H0. change (QcZ 0) with 0%Qc in *. change (QcZ 1) with 1%Qc.
  field. split; assumption.
Qed.

(** C7: for a series whose first close is not zero,
    [norm[i] = (close[i]/close[0] - 1) * 100], so [norm[0] = 0], and the
    closes multiplied by a positive [k] give the same normalised sequence. *)
Theorem norm_is_percentage_path (c0 : Qc) (rest : list Qc) :
  c0 <> QcZ 0 ->
  norm (map Fin (c0 :: rest))
  = map (fun c => Fin ((c / c0 - QcZ 1) * QcZ 100)%Qc) (c0 :: rest)
  /\ nth_error (norm (map Fin (c0 :: rest))) 0 = Some (ofZ 0)
  /\ (forall k : Qc, (QcZ 0 < k)%Qc ->
        norm (map Fin (map (Qcmult k) (c0 :: rest)))
        = norm (map Fin (c0 :: rest))).
Proof.
  intros H0. split; [|split].
  - apply norm_cons, H0.
  - rewrite norm_cons by exact H0. cbn [map nth_error].
    unfold ofZ. do 2 f_equal.
    change (QcZ 0) with 0%Qc in *. change (QcZ 1) with 1%Qc.
    field. exact H0.
  - intros k Hk.
    assert (Hk0 : k <> QcZ 0).
    { intros E. apply Qclt_not_eq in Hk. congruence. }
    change (map (Qcmult k) (c0 :: rest)) with ((k * c0)%Qc :: map (Qcmult k) rest).
    rewrite (norm_cons (c0 := (k * c0)%Qc)).
    2:{ intros E. apply Qcmult_integral in E. destruct E; contradiction. }
    rewrite norm_cons by exact H0.
    change ((k * c0)%Qc :: map (Qcmult k) rest) with (map (Qcmult k) (c0 :: rest)).
    rewrite map_map. apply map_ext. intros c. f_equal.
    apply scaled_ratio; assumption.
Qed.

(** ** Price change *)

Lemma Fin_eq (a b : Qc) : (a == b)%Q -> Fin a = Fin b.
Proof. intros H. f_equal. apply Qc_is_canon, H. Qed.

Lemma Qc_eq_Qeq (a b : Qc) : a = b -> (a == b)%Q.
Proof. intros ->. reflexivity. Qed.

Lemma round_zero_2 : round (ofZ 0) 2 = ofZ 0.
Proof. apply Fin_eq. vm_compute. reflexivity. Qed.

Lemma fsub_self (c : Qc) : (Fin c - Fin c)%F = ofZ 0.
Proof. unfold fsub, fneg, fadd, ofZ. f_equal. apply Qcplus_opp_r. Qed.

Lemma single_bar_prev (c : Qc) : prev_price [Fin c] = Fin c.
Proof. reflexivity. Qed.

Lemma price_change_pct_zero_change (close : Series.Series) :
  price_change close = ofZ 0 ->
  (exists p, prev_price close = Fin p) ->
  price_change_pct close = ofZ 0.
Proof.
  intros Hc [p Hp]. unfold price_change_pct. rewrite Hc, Hp.
  assert (Hz : forall q : Qc, q <> QcZ 0 ->
                 (ofZ 0 / Fin q * ofZ 100)%F = ofZ 0).
  { intros q Hq. unfold ofZ at 1. rewrite fdiv_Fin_nonzero by exact Hq.
    apply Fin_eq. apply Qc_eq_Qeq.
    change (QcZ 0) with 0%Qc. unfold Qcdiv. now rewrite !Qcmult_0_l. }
  unfold truthy. destruct (sign p) eqn:E; [reflexivity| |];
    apply Hz; intros E0; apply sign_eq in E0; congruence.
Qed.

(** C10: with one bar the previous price is the current one, so the change
    and the percentage change are 0, in the metrics and (rounded) in the
    snapshot; and whenever the previous price is 0 the percentage change is
    0, the division being skipped. *)
Theorem single_bar_change_is_zero :
  (forall c : Qc,
      price_change [Fin c] = ofZ 0 /\ price_change_pct [Fin c] = ofZ 0)
  /\ (forall (np_sqrt : Qc -> Qc) (Info : Type) (ticker : string)
             (info : Info) (bar : Bar),
         let snap := build_snapshot np_sqrt ticker info [bar] in
         snap_price_change snap = ofZ 0 /\ snap_price_change_pct snap = ofZ 0)
  /\ (forall close : Series.Series,
         prev_price close = ofZ 0 -> price_change_pct close = ofZ 0).
Proof.
  assert (H1 : forall c : Qc,
             price_change [Fin c] = ofZ 0 /\ price_change_pct [Fin c] = ofZ 0).
  { intros c.
    assert (Hc : price_change [Fin c] = ofZ 0) by apply fsub_self.
    split; [exact Hc|].
    apply price_change_pct_zero_change; [exact Hc|].
    exists c. reflexivity. }
  split; [exact H1|split].
  - intros np_sqrt Info ticker info bar snap. subst snap.
    cbn [build_snapshot snap_price_change snap_price_change_pct col map].
    destruct (H1 (Close bar)) as [Ha Hb]. rewrite Ha, Hb.
    split; apply round_zero_2.
  - intros close H. unfold price_change_pct. rewrite H. reflexivity.
Qed.

(** ** The routes *)

Section Routes.

Variable np_sqrt : Qc -> Qc.
Variable Info : Type.
Variable history : string -> string -> result (list Bar).
Variable stock_info : string -> result Info.

Lemma compare_step_spec (period : string) (traces : list Trace) (t : string) :
  compare_step history period traces t
  = traces ++ (if usable history period t
               then [trace_of history period t] else []).
Proof.
  unfold compare_step, usable, trace_of, bars_of.
  destruct (history t period) as [[|b hist]|e]; now rewrite ?app_nil_r.
Qed.

Lemma compare_loop (period : string) (tickers : list string) (traces : list Trace) :
  fold_left (compare_step history period) tickers traces
  = traces ++ map (trace_of history period)
                  (filter (usable history period) tickers).
Proof.
  revert traces. induction tickers as [|t tickers IH]; intros traces.
  - simpl. now rewrite app_nil_r.
  - cbn [fold_left filter]. rewrite IH, compare_step_spec.
    destruct (usable history period t); cbn [map].
    + now rewrite <- app_assoc.
    + now rewrite app_nil_r.
Qed.

(** C9: the traces of a comparison are those of the tickers whose fetch
    returned bars, in request order; a ticker whose fetch raises or returns
    nothing adds nothing, and when none succeeds the result is the empty
    list of traces, not an error. *)
Theorem compare_skips_failed_tickers (tickers : list string) (period : string) :
  compare_stocks history tickers period
  = map (trace_of history period) (filter (usable history period) tickers)
  /\ ((forall t, In t tickers -> usable history period t = false) ->
      compare_stocks history tickers period = []).
Proof.
  unfold compare_stocks. rewrite compare_loop. cbn [app].
  split; [reflexivity|].
  intros H. induction tickers as [|t tickers IH]; [reflexivity|].
  cbn [filter]. rewrite (H t) by (left; reflexivity).
  apply IH. intros t' Ht'. apply H. right. exact Ht'.
Qed.

Lemma nonempty_true (s : string) : s <> EmptyString -> Str.nonempty s = true.
Proof. destruct s; [contradiction|reflexivity]. Qed.

(** C8: a request for a ticker whose history comes back empty is answered
    with status 404 and an error message, [fetch_stock_data] having returned
    [None] without reading [stock.info] or computing anything; a fetch that
    raises is answered with status 500 instead. *)
Theorem analyze_empty_history_is_404 (data : Request) (e : string) :
  get_ticker data <> EmptyString ->
  (history (get_ticker data) (get_period data) = Ok [] ->
   fetch_stock_data np_sqrt history stock_info
     (get_ticker data) (get_period data) = Ok None
   /\ analyze np_sqrt history stock_info data
      = (ErrorJson ("No data found for '" ++ get_ticker data
                    ++ "'. Check the symbol and try again.")%string, 404))
  /\ (history (get_ticker data) (get_period data) = Raise e ->
      analyze np_sqrt history stock_info data = (ErrorJson e, 500)).
Proof.
  intros Ht. apply nonempty_true in Ht.
  split; intros H.
  - assert (Hf : fetch_stock_data np_sqrt history stock_info
                   (get_ticker data) (get_period data) = Ok None)
      by (unfold fetch_stock_data; now rewrite H).
    split; [exact Hf|].
    unfold analyze. rewrite Ht, Hf. reflexivity.
  - unfold analyze. rewrite Ht. unfold fetch_stock_data. rewrite H. reflexivity.
Qed.

End Routes.

(** ** Order on the extended rationals *)

Lemma fleb_Fin (a b : Qc) : fleb (Fin a) (Fin b) = true <-> (a <= b)%Qc.
Proof.
  unfold fleb. rewrite Qcle_alt.
  destruct (a ?= b)%Qc; split; intros H; try reflexivity; try discriminate;
    try congruence.
Qed.

Lemma sign_not_lt (q : Qc) : sign q <> Lt -> (QcZ 0 <= q)%Qc.
Proof.
  intros H. apply Qcnot_lt_le. intros Hl. apply H. now apply sign_lt.
Qed.

Lemma Qc_sum_nonneg (l : list Qc) :
  Forall (fun q => (QcZ 0 <= q)%Qc) l -> (QcZ 0 <= Qc_sum l)%Qc.
Proof.
  induction 1 as [|q l Hq Hl IH].
  - apply Qcle_refl.
  - cbn [Qc_sum fold_right]. fold (Qc_sum l). qc2q. unfold inject_Z in *. lra.
Qed.

Lemma Qc_div_nonneg (a b : Qc) :
  (QcZ 0 <= a)%Qc -> (QcZ 0 < b)%Qc -> (QcZ 0 <= a / b)%Qc.
Proof.
  intros Ha Hb. qc2q. unfold inject_Z in *.
  apply Qmult_le_0_compat; [lra|]. apply Qinv_le_0_compat. lra.
Qed.

Lemma arithmetic_mean_nonneg (l : list Qc) :
  l <> [] -> Forall (fun q => (QcZ 0 <= q)%Qc) l ->
  (QcZ 0 <= arithmetic_mean l)%Qc.
Proof.
  intros Hne Hl. unfold arithmetic_mean.
  apply Qc_div_nonneg; [now apply Qc_sum_nonneg|].
  apply QcN_pos. destruct l; [contradiction|simpl; lia].
Qed.

(** ** Positions of the element-wise and rolling operations *)

Lemma nth_error_zip_with (f : float -> float -> float) (a b : Series.Series)
  (i : nat) (x y : float) :
  nth_error a i = Some x -> nth_error b i = Some y ->
  nth_error (Series.zip_with f a b) i = Some (f x y).
Proof.
  revert b i. induction a as [|x0 a IH]; intros b i Ha Hb.
  - destruct i; discriminate.
  - destruct b as [|y0 b]; [destruct i; discriminate|].
    destruct i as [|i]; cbn in *.
    + congruence.
    + now apply IH.
Qed.

Lemma nth_error_zip_with_inv (f : float -> float -> float) (a b : Series.Series)
  (i : nat) (u : float) :
  nth_error (Series.zip_with f a b) i = Some u ->
  exists x y, nth_error a i = Some x /\ nth_error b i = Some y /\ u = f x y.
Proof.
  revert b i. induction a as [|x0 a IH]; intros b i H.
  - destruct i; discriminate.
  - destruct b as [|y0 b]; [destruct i; discriminate|].
    destruct i as [|i]; cbn in H.
    + exists x0, y0. repeat split. congruence.
    + apply IH in H. exact H.
Qed.

Lemma nth_error_map_inv (A B : Type) (g : A -> B) (l : list A) (i : nat) (v : B) :
  nth_error (map g l) i = Some v -> exists x, nth_error l i = Some x /\ v = g x.
Proof.
  rewrite nth_error_map. destruct (nth_error l i) as [x|]; [|discriminate].
  intros H. exists x. split; [reflexivity|]. cbn in H. congruence.
Qed.

Lemma in_firstn (A : Type) (n : nat) (l : list A) (x : A) :
  In x (firstn n l) -> In x l.
Proof.
  intros H. rewrite <- (firstn_skipn n l). apply in_or_app. now left.
Qed.

Lemma in_skipn (A : Type) (n : nat) (l : list A) (x : A) :
  In x (skipn n l) -> In x l.
Proof.
  intros H. rewrite <- (firstn_skipn n l). apply in_or_app. now right.
Qed.

Lemma window_incl (w i : nat) (s : Series.Series) (x : float) :
  In x (Series.window w i s) -> In x s.
Proof.
  unfold Series.window. intros H.
  apply in_skipn in H. now apply in_firstn in H.
Qed.

Lemma rolling_elem (w : nat) (agg : Series.Series -> float)
  (s : Series.Series) (i : nat) (v : float) :
  nth_error (Series.rolling w agg s) i = Some v ->
  v = NaN
  \/ exists obs, v = agg obs /\ (w <= length obs)%nat
                 /\ Forall (fun x => In x s /\ isnan x = false) obs.
Proof.
  unfold Series.rolling. intros H.
  apply nth_error_map_inv in H. destruct H as [j [_ Hv]].
  destruct (length (Series.dropna (Series.window w j s)) <? w)%nat eqn:E.
  - left. exact Hv.
  - right. exists (Series.dropna (Series.window w j s)).
    split; [exact Hv|]. split; [now apply Nat.ltb_ge|].
    apply Forall_forall. intros x Hx. apply filter_In in Hx.
    destruct Hx as [Hin Hn]. split; [now apply window_incl in Hin|].
    unfold notna in Hn. now destruct (isnan x).
Qed.

(** ** Bollinger bands *)

Section Bollinger.

Variable np_sqrt : Qc -> Qc.
Hypothesis np_sqrt_nonneg : forall q : Qc, (QcZ 0 <= q)%Qc -> (QcZ 0 <= np_sqrt q)%Qc.

Lemma fsqrt_root_like (x : float) : root_like (fsqrt np_sqrt x).
Proof.
  destruct x as [q| | |]; cbn; try (left; reflexivity).
  - destruct (sign q) eqn:E.
    + right. right. eexists. split; [reflexivity|].
      apply np_sqrt_nonneg, sign_not_lt. congruence.
    + left. reflexivity.
    + right. right. eexists. split; [reflexivity|].
      apply np_sqrt_nonneg, sign_not_lt. congruence.
  - right. left. reflexivity.
Qed.

Lemma BB_Std_root_like (close : Series.Series) (i : nat) (s : float) :
  nth_error (BB_Std np_sqrt close) i = Some s -> root_like s.
Proof.
  unfold BB_Std, Series.rolling_std. intros H.
  apply rolling_elem in H. destruct H as [H|[obs [H _]]].
  - left. exact H.
  - subst s. apply fsqrt_root_like.
Qed.

Lemma two_positive : sign (QcZ 2) = Gt.
Proof. reflexivity. Qed.

Lemma band_order (m s : float) :
  root_like s ->
  isnan m = false ->
  isnan (m + ofZ 2 * s)%F = false ->
  isnan (m - ofZ 2 * s)%F = false ->
  fleb (m - ofZ 2 * s)%F m = true /\ fleb m (m + ofZ 2 * s)%F = true.
Proof.
  intros [Hs|[Hs|[q [Hs Hq]]]] Hm Hu Hl; subst s.
  - destruct m; discriminate.
  - destruct m as [a| | |]; try discriminate; split; reflexivity.
  - destruct m as [a| | |]; try discriminate; try (split; reflexivity).
    unfold ofZ, fmul, fsub, fadd, fneg. split; apply fleb_Fin.
    + qc2q. unfold inject_Z in *. lra.
    + qc2q. unfold inject_Z in *. lra.
Qed.

(** C6: wherever the midline and both bands are numbers,
    [lower <= midline <= upper]; the bands are the midline minus and plus
    twice the rolling standard deviation, which is never negative. *)
Theorem bollinger_bands_ordered (close : Series.Series) (i : nat) (m u l : float) :
  nth_error (BB_Mid close) i = Some m ->
  nth_error (BB_Upper np_sqrt close) i = Some u ->
  nth_error (BB_Lower np_sqrt close) i = Some l ->
  isnan m = false -> isnan u = false -> isnan l = false ->
  fleb l m = true /\ fleb m u = true.
Proof.
  intros Hm Hu Hl Nm Nu Nl.
  unfold BB_Upper in Hu. unfold BB_Lower in Hl.
  apply nth_error_zip_with_inv in Hu. destruct Hu as [m1 [d1 [Hm1 [Hd1 Eu]]]].
  apply nth_error_zip_with_inv in Hl. destruct Hl as [m2 [d2 [Hm2 [Hd2 El]]]].
  rewrite Hm in Hm1, Hm2. injection Hm1 as <-. injection Hm2 as <-.
  apply nth_error_map_inv in Hd1. destruct Hd1 as [s [Hs Ed1]].
  rewrite nth_error_map, Hs in Hd2. cbn in Hd2. injection Hd2 as <-.
  subst d1 u l.
  apply band_order; try assumption.
  apply (BB_Std_root_like _ _ Hs).
Qed.

End Bollinger.

(** ** Risk metrics *)

Section Risk.

Variable np_sqrt : Qc -> Qc.

Lemma std_short (returns : Series.Series) :
  (length (Series.dropna returns) <= 1)%nat -> Series.std np_sqrt returns = NaN.
Proof.
  intros H. unfold Series.std, Series.var.
  apply Nat.leb_le in H. rewrite H. reflexivity.
Qed.

Lemma sharpe_of_guard (returns : Series.Series) :
  Series.std np_sqrt returns = NaN \/ Series.std np_sqrt returns = ofZ 0 ->
  sharpe_of np_sqrt returns = ofZ 0.
Proof. intros [H|H]; unfold sharpe_of; rewrite H; reflexivity. Qed.

Lemma volatility_of_nan (returns : Series.Series) :
  Series.std np_sqrt returns = NaN -> volatility_of np_sqrt returns = NaN.
Proof. intros H. unfold volatility_of. rewrite H. reflexivity. Qed.

Lemma volatility_of_zero (returns : Series.Series) :
  Series.std np_sqrt returns = ofZ 0 -> volatility_of np_sqrt returns = ofZ 0.
Proof.
  intros H. unfold volatility_of. rewrite H. unfold ofZ, fmul.
  f_equal; change (QcZ 0) with 0%Qc; now rewrite !Qcmult_0_l.
Qed.

(** With at most one return the standard deviation is NaN: the Sharpe
    ratio takes its guard and is 0, the volatility, which has no guard, is
    NaN. *)
Theorem short_returns_metrics (returns : Series.Series) :
  (length (Series.dropna returns) <= 1)%nat ->
  volatility_of np_sqrt returns = NaN /\ sharpe_of np_sqrt returns = ofZ 0.
Proof.
  intros H. apply std_short in H. split.
  - now apply volatility_of_nan.
  - apply sharpe_of_guard. now left.
Qed.

(** With a standard deviation of 0 both metrics are 0. *)
Theorem zero_std_metrics (returns : Series.Series) :
  Series.std np_sqrt returns = ofZ 0 ->
  volatility_of np_sqrt returns = ofZ 0 /\ sharpe_of np_sqrt returns = ofZ 0.
Proof.
  intros H. split.
  - now apply volatility_of_zero.
  - apply sharpe_of_guard. now right.
Qed.

(** C1: on a history of one bar there is no return; the volatility of the
    snapshot is NaN, not 0, while its Sharpe ratio is 0. *)
Theorem single_bar_volatility_is_nan (Info : Type) (ticker : string)
  (info : Info) (bar : Bar) :
  let close := col Close [bar] in
  let snap := build_snapshot np_sqrt ticker info [bar] in
  returns close = []
  /\ volatility np_sqrt close = NaN
  /\ snap_volatility snap = NaN
  /\ snap_sharpe_ratio snap = ofZ 0.
Proof.
  cbv zeta. split; [reflexivity|]. split; [reflexivity|]. split; [reflexivity|].
  cbn [build_snapshot snap_sharpe_ratio].
  change (sharpe np_sqrt (col Close [bar])) with (ofZ 0).
  apply Fin_eq. vm_compute. reflexivity.
Qed.

End Risk.

(** ** RSI *)

Lemma rsi_of_rs_PInf : rsi_of_rs PInf = ofZ 100.
Proof. apply Fin_eq. vm_compute. reflexivity. Qed.

Lemma rsi_series_at (close : Series.Series) (i : nat) (g l : float) :
  nth_error (gain close) i = Some g ->
  nth_error (loss close) i = Some l ->
  nth_error (rsi_series close) i = Some (rsi_of_rs (g / l)%F).
Proof.
  intros Hg Hl. unfold rsi_series, rs.
  rewrite nth_error_map, (nth_error_zip_with fdiv _ _ _ Hg Hl). reflexivity.
Qed.

(** C2: where the 14-period rolling mean of the losses is 0 and that of the
    gains is positive, the RSI is exactly 100. *)
Theorem rsi_is_100_without_losses (close : Series.Series) (i : nat) (g : Qc) :
  nth_error (loss close) i = Some (ofZ 0) ->
  nth_error (gain close) i = Some (Fin g) ->
  (QcZ 0 < g)%Qc ->
  nth_error (rsi_series close) i = Some (ofZ 100).
Proof.
  intros Hl Hg Hpos. rewrite (rsi_series_at _ _ Hg Hl).
  apply sign_gt in Hpos. unfold ofZ at 1, fdiv.
  change (sign (QcZ 0)) with Eq. cbv iota. rewrite Hpos. cbn [inf_of].
  now rewrite rsi_of_rs_PInf.
Qed.

Lemma pairs_fsub_Fin (p : Qc) (l : list Qc) :
  pairs fsub (Fin p) (map Fin l) = map Fin (pairs Qcminus p l).
Proof.
  revert p. induction l as [|y l IH]; intros p; [reflexivity|].
  cbn [map pairs]. now rewrite IH.
Qed.

Lemma delta_of_closes (c : Qc) (l : list Qc) :
  delta (map Fin (c :: l)) = NaN :: map Fin (deltas (c :: l)).
Proof.
  unfold delta, Series.diff. change (map Fin (c :: l)) with (Fin c :: map Fin l).
  rewrite zip_with_shift_cons, pairs_fsub_Fin. reflexivity.
Qed.

Lemma clip_lower_Fin (D : list Qc) :
  Series.clip_lower (ofZ 0) (map Fin D) = map Fin (map up D).
Proof.
  unfold Series.clip_lower. rewrite !map_map. apply map_ext. intros d.
  unfold up, ofZ, fltb. now destruct (Qccompare d (QcZ 0)).
Qed.

Lemma neg_clip_upper_Fin (D : list Qc) :
  Series.neg (Series.clip_upper (ofZ 0) (map Fin D)) = map Fin (map down D).
Proof.
  unfold Series.neg, Series.clip_upper. rewrite !map_map. apply map_ext.
  intros d. unfold down, ofZ, fgtb, fltb.
  now destruct (Qccompare (QcZ 0) d).
Qed.

Lemma rolling_mean_lead_nan (w i : nat) (X : list Qc) :
  (1 <= w)%nat -> (i <= length X)%nat ->
  nth_error (Series.rolling_mean w (NaN :: map Fin X)) i
  = Some (if (i <? w)%nat then NaN
          else Fin (arithmetic_mean (trailing w i X))).
Proof.
  intros Hw Hi. unfold Series.rolling_mean, Series.rolling.
  rewrite nth_error_map_seq by (cbn [length]; rewrite length_map; lia).
  f_equal. unfold Series.window. rewrite Nat.add_1_r.
  cbn [firstn]. rewrite firstn_map.
  destruct (i <? w)%nat eqn:E.
  - apply Nat.ltb_lt in E. replace (S i - w)%nat with 0%nat by lia.
    cbn [skipn]. unfold Series.dropna at 1. cbn [filter notna isnan negb].
    fold (Series.dropna (map Fin (firstn i X))). rewrite dropna_map_Fin.
    rewrite length_map, length_firstn.
    replace (Nat.min i (length X) <? w)%nat with true
      by (symmetry; apply Nat.ltb_lt; lia).
    reflexivity.
  - apply Nat.ltb_ge in E. replace (S i - w)%nat with (S (i - w)) by lia.
    cbn [skipn]. rewrite skipn_map, dropna_map_Fin, length_map.
    fold (trailing w i X).
    assert (Hlen : length (trailing w i X) = w).
    { unfold trailing. rewrite length_skipn, length_firstn. lia. }
    rewrite Hlen, Nat.ltb_irrefl.
    rewrite mean_map_Fin; [reflexivity|].
    intros E0. rewrite E0 in Hlen. simpl in Hlen. lia.
Qed.

Lemma gain_at (c : Qc) (l : list Qc) (i : nat) :
  (i <= length l)%nat ->
  nth_error (gain (map Fin (c :: l))) i
  = Some (if (i <? 14)%nat then NaN
          else Fin (arithmetic_mean (trailing 14 i (map up (deltas (c :: l)))))).
Proof.
  intros Hi. unfold gain. rewrite delta_of_closes.
  change (Series.clip_lower (ofZ 0) (NaN :: map Fin (deltas (c :: l))))
    with (NaN :: Series.clip_lower (ofZ 0) (map Fin (deltas (c :: l)))).
  rewrite clip_lower_Fin. apply rolling_mean_lead_nan; [lia|].
  rewrite length_map. unfold deltas. now rewrite pairs_length.
Qed.

Lemma loss_at (c : Qc) (l : list Qc) (i : nat) :
  (i <= length l)%nat ->
  nth_error (loss (map Fin (c :: l))) i
  = Some (if (i <? 14)%nat then NaN
          else Fin (arithmetic_mean (trailing 14 i (map down (deltas (c :: l)))))).
Proof.
  intros Hi. unfold loss. rewrite delta_of_closes.
  change (Series.neg (Series.clip_upper (ofZ 0) (NaN :: map Fin (deltas (c :: l)))))
    with (NaN :: Series.neg (Series.clip_upper (ofZ 0) (map Fin (deltas (c :: l))))).
  rewrite neg_clip_upper_Fin. apply rolling_mean_lead_nan; [lia|].
  rewrite length_map. unfold deltas. now rewrite pairs_length.
Qed.

Lemma up_nonneg (d : Qc) : (QcZ 0 <= up d)%Qc.
Proof.
  unfold up. destruct (Qccompare d (QcZ 0)) eqn:E.
  - apply Qceq_alt in E. subst d. apply Qcle_refl.
  - apply Qcle_refl.
  - apply Qclt_le_weak. now apply Qcgt_alt in E.
Qed.

Lemma down_nonneg (d : Qc) : (QcZ 0 <= down d)%Qc.
Proof.
  unfold down. destruct (Qccompare (QcZ 0) d) eqn:E.
  - apply Qceq_alt in E. subst d. apply Qcle_refl.
  - apply Qcle_refl.
  - apply Qcgt_alt in E. qc2q. unfold inject_Z in *. lra.
Qed.

Lemma up_down_of_nonneg (d : Qc) :
  (QcZ 0 <= d)%Qc -> up d = d /\ down d = QcZ 0.
Proof.
  intros H. unfold up, down. split.
  - destruct (Qccompare d (QcZ 0)) eqn:E; try reflexivity.
    apply Qclt_alt in E. exfalso. revert E. now apply Qcle_not_lt.
  - destruct (Qccompare (QcZ 0) d) eqn:E.
    + apply Qceq_alt in E. now subst d.
    + reflexivity.
    + apply Qcgt_alt in E. exfalso. revert E. now apply Qcle_not_lt.
Qed.

Lemma up_or_down_positive (d : Qc) :
  d <> QcZ 0 -> (QcZ 0 < up d)%Qc \/ (QcZ 0 < down d)%Qc.
Proof.
  intros H. unfold up, down.
  destruct (Qccompare d (QcZ 0)) eqn:E.
  - apply Qceq_alt in E. contradiction.
  - right. apply Qclt_alt in E.
    assert (E' : Qccompare (QcZ 0) d = Gt) by now apply Qcgt_alt.
    rewrite E'. qc2q. unfold inject_Z in *. lra.
  - left. now apply Qcgt_alt in E.
Qed.

Lemma Qc_sum_positive (X : list Qc) (x : Qc) :
  Forall (fun q => (QcZ 0 <= q)%Qc) X -> In x X -> (QcZ 0 < x)%Qc ->
  (QcZ 0 < Qc_sum X)%Qc.
Proof.
  intros HX. induction HX as [|q X Hq HX IH]; intros Hin Hx; [destruct Hin|].
  cbn [Qc_sum fold_right]. fold (Qc_sum X).
  pose proof (Qc_sum_nonneg HX) as Hs.
  destruct Hin as [->|Hin].
  - qc2q. unfold inject_Z in *. lra.
  - specialize (IH Hin Hx). qc2q. unfold inject_Z in *. lra.
Qed.

Lemma Qc_sum_zeros (X : list Qc) :
  Forall (fun q => q = QcZ 0) X -> Qc_sum X = QcZ 0.
Proof.
  induction 1 as [|q X Hq HX IH]; [reflexivity|].
  cbn [Qc_sum fold_right]. fold (Qc_sum X). rewrite IH, Hq. apply Qcplus_0_l.
Qed.

Lemma Qc_div_positive (a b : Qc) :
  (QcZ 0 < a)%Qc -> (QcZ 0 < b)%Qc -> (QcZ 0 < a / b)%Qc.
Proof.
  intros Ha Hb. qc2q. unfold inject_Z in *.
  apply Qmult_lt_0_compat; [lra|]. apply Qinv_lt_0_compat. lra.
Qed.

Lemma arithmetic_mean_positive (X : list Qc) (x : Qc) :
  Forall (fun q => (QcZ 0 <= q)%Qc) X -> In x X -> (QcZ 0 < x)%Qc ->
  (QcZ 0 < arithmetic_mean X)%Qc.
Proof.
  intros HX Hin Hx. unfold arithmetic_mean. apply Qc_div_positive.
  - now apply (Qc_sum_positive HX Hin).
  - apply QcN_pos. destruct X; [destruct Hin|simpl; lia].
Qed.

Lemma arithmetic_mean_zeros (X : list Qc) :
  Forall (fun q => q = QcZ 0) X -> arithmetic_mean X = QcZ 0.
Proof.
  intros H. unfold arithmetic_mean. rewrite (Qc_sum_zeros H).
  unfold Qcdiv. apply Qcmult_0_l.
Qed.

Lemma trailing_nth (w i k : nat) (X : list Qc) (d : Qc) :
  (i - w <= k < i)%nat -> (i <= length X)%nat ->
  In (nth k X d) (trailing w i X).
Proof.
  intros Hk Hi. unfold trailing.
  replace (nth k X d) with (nth (k - (i - w)) (skipn (i - w) (firstn i X)) d).
  - apply nth_In. rewrite length_skipn, length_firstn. lia.
  - rewrite nth_skipn. replace (i - w + (k - (i - w)))%nat with k by lia.
    rewrite nth_firstn.
    replace (k <? i)%nat with true by (symmetry; apply Nat.ltb_lt; lia).
    reflexivity.
Qed.

Lemma trailing_all (w i : nat) (X : list Qc) (P : Qc -> Prop) (d : Qc) :
  (i <= length X)%nat ->
  (forall k, (i - w <= k < i)%nat -> P (nth k X d)) ->
  Forall P (trailing w i X).
Proof.
  intros Hi H. apply Forall_forall. intros x Hx.
  apply (In_nth _ _ d) in Hx. destruct Hx as [n [Hn <-]].
  unfold trailing in *. rewrite length_skipn, length_firstn in Hn.
  rewrite nth_skipn, nth_firstn.
  replace (i - w + n <? i)%nat with true by (symmetry; apply Nat.ltb_lt; lia).
  apply H. lia.
Qed.

Lemma deltas_nth (closes : list Qc) (k : nat) :
  (S k < length closes)%nat ->
  nth k (deltas closes) (QcZ 0)
  = (nth (S k) closes (QcZ 0) - nth k closes (QcZ 0))%Qc.
Proof.
  intros H. destruct closes as [|c l]; [simpl in H; lia|].
  unfold deltas. simpl in H.
  apply nth_error_nth. rewrite (pairs_nth_error Qcminus (QcZ 0)) by lia.
  reflexivity.
Qed.

Lemma deltas_length (closes : list Qc) :
  length (deltas closes) = (length closes - 1)%nat.
Proof.
  destruct closes as [|c l]; [reflexivity|].
  unfold deltas. rewrite pairs_length. simpl. lia.
Qed.

(** ** The RSI formula on the two rolling means *)

Lemma rsi_formula_bounds (r : Qc) :
  (QcZ 0 <= r)%Qc ->
  (QcZ 0 <= QcZ 100 - QcZ 100 / (QcZ 1 + r))%Qc
  /\ (QcZ 100 - QcZ 100 / (QcZ 1 + r) <= QcZ 100)%Qc.
Proof.
  intros Hr. qc2q. unfold inject_Z in *.
  assert (Ht : (0 < 1 + r)%Q) by lra.
  assert (H1 : (0 <= 100 * / (1 + r))%Q).
  { apply Qmult_le_0_compat; [lra|]. apply Qinv_le_0_compat. lra. }
  assert (H2 : (100 * / (1 + r) <= 100)%Q).
  { apply Qle_shift_div_r; [exact Ht|]. nra. }
  split; lra.
Qed.

Lemma rsi_of_rs_bounds (G L : Qc) :
  (QcZ 0 <= G)%Qc -> (QcZ 0 < L)%Qc ->
  exists v, rsi_of_rs (Fin G / Fin L) = Fin v
            /\ (QcZ 0 <= v)%Qc /\ (v <= QcZ 100)%Qc.
Proof.
  intros HG HL. rewrite fdiv_Fin_pos by exact HL.
  pose proof (Qc_div_nonneg HG HL) as Hr.
  set (r := (G / L)%Qc) in *.
  unfold rsi_of_rs, ofZ. unfold fadd at 1.
  rewrite fdiv_Fin_pos.
  - eexists. split; [reflexivity|]. apply (rsi_formula_bounds Hr).
  - qc2q. unfold inject_Z in *. lra.
Qed.

Lemma rsi_of_rs_no_loss (G : Qc) :
  (QcZ 0 < G)%Qc -> rsi_of_rs (Fin G / ofZ 0) = ofZ 100.
Proof.
  intros HG. apply sign_gt in HG. unfold ofZ at 1, fdiv.
  change (sign (QcZ 0)) with Eq. cbv iota. rewrite HG. apply rsi_of_rs_PInf.
Qed.

Lemma rsi_of_rs_flat : rsi_of_rs (ofZ 0 / ofZ 0) = NaN.
Proof. reflexivity. Qed.

(** The RSI at every position of a series of closes. *)
Lemma rsi_series_of_closes (closes : list Qc) (i : nat) :
  (i < length closes)%nat ->
  nth_error (rsi_series (map Fin closes)) i
  = Some (if (i <? 14)%nat then NaN
          else rsi_of_rs (Fin (mean_gain closes i) / Fin (mean_loss closes i))).
Proof.
  intros Hi. destruct closes as [|c l]; [simpl in Hi; lia|].
  simpl in Hi.
  rewrite (rsi_series_at _ _ (gain_at c l (i := i) ltac:(lia))
                             (loss_at c l (i := i) ltac:(lia))).
  now destruct (i <? 14)%nat.
Qed.

Lemma trailing_window_length (closes : list Qc) (f : Qc -> Qc) (i : nat) :
  (14 <= i < length closes)%nat ->
  trailing 14 i (map f (deltas closes)) <> [].
Proof.
  intros Hi E. apply (f_equal (@length Qc)) in E. unfold trailing in E.
  rewrite length_skipn, length_firstn, length_map, deltas_length in E.
  simpl in E. lia.
Qed.

Lemma mean_gain_nonneg (closes : list Qc) (i : nat) :
  (14 <= i < length closes)%nat -> (QcZ 0 <= mean_gain closes i)%Qc.
Proof.
  intros Hi. apply arithmetic_mean_nonneg.
  - now apply trailing_window_length.
  - apply Forall_forall. intros x Hx. unfold trailing in Hx.
    apply in_skipn, in_firstn, in_map_iff in Hx.
    destruct Hx as [d [<- _]]. apply up_nonneg.
Qed.

Lemma mean_loss_nonneg (closes : list Qc) (i : nat) :
  (14 <= i < length closes)%nat -> (QcZ 0 <= mean_loss closes i)%Qc.
Proof.
  intros Hi. apply arithmetic_mean_nonneg.
  - now apply trailing_window_length.
  - apply Forall_forall. intros x Hx. unfold trailing in Hx.
    apply in_skipn, in_firstn, in_map_iff in Hx.
    destruct Hx as [d [<- _]]. apply down_nonneg.
Qed.

Lemma trailing_map_nth (f : Qc -> Qc) (closes : list Qc) (i j : nat) :
  (14 <= i < length closes)%nat -> (i - 13 <= j <= i)%nat ->
  In (f (nth j closes (QcZ 0) - nth (j - 1) closes (QcZ 0))%Qc)
     (trailing 14 i (map f (deltas closes))).
Proof.
  intros Hi Hj.
  assert (E : nth (j - 1) (map f (deltas closes)) (f (QcZ 0))
              = f (nth j closes (QcZ 0) - nth (j - 1) closes (QcZ 0))%Qc).
  { rewrite map_nth, deltas_nth by lia. now replace (S (j - 1)) with j by lia. }
  rewrite <- E. apply trailing_nth; [lia|].
  rewrite length_map, deltas_length. lia.
Qed.

Lemma trailing_forall (f : Qc -> Qc) (P : Qc -> Prop) (closes : list Qc) (i : nat) :
  (14 <= i < length closes)%nat ->
  (forall j, (i - 13 <= j <= i)%nat ->
     P (f (nth j closes (QcZ 0) - nth (j - 1) closes (QcZ 0))%Qc)) ->
  Forall P (trailing 14 i (map f (deltas closes))).
Proof.
  intros Hi H. apply trailing_all with (d := f (QcZ 0)).
  - rewrite length_map, deltas_length. lia.
  - intros k Hk. rewrite map_nth, deltas_nth by lia.
    specialize (H (S k) ltac:(lia)).
    now replace (S k - 1)%nat with k in H by lia.
Qed.

Lemma Qc_minus_nonzero (a b : Qc) : a <> b -> (a - b)%Qc <> QcZ 0.
Proof.
  intros H E. apply H. change (QcZ 0) with 0%Qc in E.
  rewrite <- (Qcplus_0_l b), <- E. ring.
Qed.

Lemma Qc_minus_nonneg (a b : Qc) : (b <= a)%Qc -> (QcZ 0 <= a - b)%Qc.
Proof. intros H. qc2q. unfold inject_Z. lra. Qed.

Lemma Qc_minus_positive (a b : Qc) : (b < a)%Qc -> (QcZ 0 < a - b)%Qc.
Proof. intros H. qc2q. unfold inject_Z. lra. Qed.

Lemma Qc_nonneg_cases (q : Qc) :
  (QcZ 0 <= q)%Qc -> q = QcZ 0 \/ (QcZ 0 < q)%Qc.
Proof.
  intros H. apply Qcle_lt_or_eq in H. destruct H as [H|H]; [now right|now left].
Qed.

(** C3: at a position with enough history ([i >= 14]) and at least one
    non-zero delta among the trailing 14, the RSI is a number of
    [[0, 100]]. *)
Theorem rsi_in_range_where_defined (closes : list Qc) (i : nat) :
  (14 <= i < length closes)%nat ->
  (exists j, (i - 13 <= j <= i)%nat
             /\ nth j closes (QcZ 0) <> nth (j - 1) closes (QcZ 0)) ->
  exists v, nth_error (rsi_series (map Fin closes)) i = Some (Fin v)
            /\ (QcZ 0 <= v)%Qc /\ (v <= QcZ 100)%Qc.
Proof.
  intros Hi [j [Hj Hne]].
  rewrite rsi_series_of_closes by lia.
  replace (i <? 14)%nat with false by (symmetry; apply Nat.ltb_ge; lia).
  pose proof (@mean_gain_nonneg closes i Hi) as HG.
  pose proof (@mean_loss_nonneg closes i Hi) as HL.
  destruct (Qc_nonneg_cases HL) as [EL|PL].
  - assert (PG : (QcZ 0 < mean_gain closes i)%Qc).
    { apply Qc_minus_nonzero in Hne.
      pose proof (@trailing_map_nth up closes i j Hi Hj) as Iu.
      pose proof (@trailing_map_nth down closes i j Hi Hj) as Id.
      set (d := (nth j closes (QcZ 0) - nth (j - 1) closes (QcZ 0))%Qc) in *.
      destruct (up_or_down_positive Hne) as [Hu|Hd].
      - apply arithmetic_mean_positive with (x := up d); [|exact Iu|exact Hu].
        apply (trailing_forall up); [exact Hi|]. intros. apply up_nonneg.
      - exfalso.
        assert (PL : (QcZ 0 < mean_loss closes i)%Qc).
        { apply arithmetic_mean_positive with (x := down d);
            [|exact Id|exact Hd].
          apply (trailing_forall down); [exact Hi|]. intros. apply down_nonneg. }
        rewrite EL in PL. revert PL. apply Qcle_not_lt, Qcle_refl. }
    rewrite EL. fold (ofZ 0). rewrite (rsi_of_rs_no_loss PG).
    exists (QcZ 100). split; [reflexivity|]. split; [discriminate|apply Qcle_refl].
  - destruct (rsi_of_rs_bounds HG PL) as [v [Ev Hv]].
    exists v. rewrite Ev. split; [reflexivity|exact Hv].
Qed.

Lemma rsi_series_length (close : Series.Series) :
  length (rsi_series close) = length close.
Proof.
  unfold rsi_series, rs, gain, loss, Series.rolling_mean, Series.rolling,
    Series.clip_lower, Series.clip_upper, Series.neg, delta, Series.diff.
  rewrite length_map.
  assert (Hz : forall f (a b : Series.Series), length a = length b ->
                 length (Series.zip_with f a b) = length a).
  { intros f a. induction a as [|x a IH]; intros [|y b] H; simpl in *;
      try reflexivity; try discriminate. f_equal. apply IH. lia. }
  assert (Hs : length (Series.shift close) = length close).
  { destruct close as [|x s]; [reflexivity|].
    unfold Series.shift. rewrite removelast_firstn_len.
    cbn [length]. rewrite length_firstn. cbn [length pred]. lia. }
  rewrite Hz; rewrite ?length_map, ?length_seq, ?length_map, ?Hz; auto.
Qed.

(** Before position 14 there is not enough history: the RSI is NaN. *)
Lemma rsi_before_14 (closes : list Qc) (i : nat) :
  (i < 14)%nat -> (i < length closes)%nat ->
  nth_error (rsi_series (map Fin closes)) i = Some NaN.
Proof.
  intros H14 Hi. rewrite rsi_series_of_closes by exact Hi.
  now replace (i <? 14)%nat with true by (symmetry; apply Nat.ltb_lt; lia).
Qed.

(** X23: with enough history and fourteen zero deltas the mean loss is 0 and
    the RSI is NaN. *)
Lemma rsi_flat_window (closes : list Qc) (i : nat) :
  (14 <= i < length closes)%nat ->
  (forall j, (i - 13 <= j <= i)%nat ->
     nth j closes (QcZ 0) = nth (j - 1) closes (QcZ 0)) ->
  nth_error (loss (map Fin closes)) i = Some (ofZ 0)
  /\ nth_error (rsi_series (map Fin closes)) i = Some NaN.
Proof.
  intros Hi Hflat.
  assert (Hz : forall f, f (QcZ 0) = QcZ 0 ->
             arithmetic_mean (trailing 14 i (map f (deltas closes))) = QcZ 0).
  { intros f Hf. apply arithmetic_mean_zeros.
    apply (trailing_forall f); [exact Hi|]. intros j Hj.
    rewrite (Hflat j Hj). change (QcZ 0) with 0%Qc in *.
    unfold Qcminus. now rewrite Qcplus_opp_r. }
  split.
  - destruct closes as [|c l]; [simpl in Hi; lia|]. simpl in Hi.
    rewrite loss_at by lia.
    replace (i <? 14)%nat with false by (symmetry; apply Nat.ltb_ge; lia).
    now rewrite (Hz down eq_refl).
  - rewrite rsi_series_of_closes by lia.
    replace (i <? 14)%nat with false by (symmetry; apply Nat.ltb_ge; lia).
    unfold mean_gain, mean_loss.
    now rewrite (Hz up eq_refl), (Hz down eq_refl).
Qed.

(** X21: with enough history, no fall among the trailing 14 deltas and at
    least one rise, the mean loss is 0 and the RSI is 100. *)
Lemma rsi_rising_window (closes : list Qc) (i : nat) :
  (14 <= i < length closes)%nat ->
  (forall j, (i - 13 <= j <= i)%nat ->
     (nth (j - 1) closes (QcZ 0) <= nth j closes (QcZ 0))%Qc) ->
  (exists j, (i - 13 <= j <= i)%nat
             /\ (nth (j - 1) closes (QcZ 0) < nth j closes (QcZ 0))%Qc) ->
  nth_error (loss (map Fin closes)) i = Some (ofZ 0)
  /\ nth_error (rsi_series (map Fin closes)) i = Some (ofZ 100).
Proof.
  intros Hi Hup [j [Hj Hlt]].
  assert (EL : mean_loss closes i = QcZ 0).
  { apply arithmetic_mean_zeros. apply (trailing_forall down); [exact Hi|].
    intros k Hk. apply up_down_of_nonneg, Qc_minus_nonneg, Hup, Hk. }
  assert (PG : (QcZ 0 < mean_gain closes i)%Qc).
  { pose proof (@trailing_map_nth up closes i j Hi Hj) as Iu.
    apply Qc_minus_positive in Hlt.
    set (d := (nth j closes (QcZ 0) - nth (j - 1) closes (QcZ 0))%Qc) in *.
    apply arithmetic_mean_positive with (x := up d); [|exact Iu|].
    - apply (trailing_forall up); [exact Hi|]. intros. apply up_nonneg.
    - destruct (up_down_of_nonneg (Qclt_le_weak _ _ Hlt)) as [-> _]. exact Hlt. }
  split.
  - destruct closes as [|c l]; [simpl in Hi; lia|]. simpl in Hi.
    rewrite loss_at by lia.
    replace (i <? 14)%nat with false by (symmetry; apply Nat.ltb_ge; lia).
    fold (mean_loss (c :: l) i). now rewrite EL.
  - rewrite rsi_series_of_closes by lia.
    replace (i <? 14)%nat with false by (symmetry; apply Nat.ltb_ge; lia).
    rewrite EL. fold (ofZ 0). now rewrite (rsi_of_rs_no_loss PG).
Qed.

(** X24: an RSI that is a number is in [[0, 100]], at every position of
    every series of closes. *)
Lemma rsi_value_in_range (closes : list Qc) (i : nat) (v : float) :
  nth_error (rsi_series (map Fin closes)) i = Some v ->
  isnan v = false ->
  fleb (ofZ 0) v = true /\ fleb v (ofZ 100) = true.
Proof.
  intros Hv Hn.
  assert (Hi : (i < length closes)%nat).
  { rewrite <- (length_map Fin), <- rsi_series_length.
    apply nth_error_Some. congruence. }
  rewrite rsi_series_of_closes in Hv by exact Hi.
  destruct (i <? 14)%nat eqn:E.
  - injection Hv as <-. discriminate.
  - apply Nat.ltb_ge in E.
    assert (Hi' : (14 <= i < length closes)%nat) by lia.
    pose proof (@mean_gain_nonneg closes i Hi') as HG.
    pose proof (@mean_loss_nonneg closes i Hi') as HL.
    assert (Ev : v = rsi_of_rs (Fin (mean_gain closes i)
                                / Fin (mean_loss closes i))) by congruence.
    clear Hv. subst v.
    destruct (Qc_nonneg_cases HL) as [EL|PL].
    + rewrite EL in *. fold (ofZ 0) in *.
      destruct (Qc_nonneg_cases HG) as [EG|PG].
      * rewrite EG in Hn. discriminate.
      * rewrite (rsi_of_rs_no_loss PG). split; reflexivity.
    + destruct (rsi_of_rs_bounds HG PL) as [v [-> [H0 H100]]].
      split; now apply fleb_Fin.
Qed.

Lemma QcN_succ (n : nat) : QcN (S n) = (1 + QcN n)%Qc.
Proof.
  apply Qc_is_canon. unfold QcN. rewrite Nat2Z.inj_succ.
  qc2q. unfold Qeq, Qplus, inject_Z. cbn [Qnum Qden]. lia.
Qed.

Lemma Qc_sum_repeat (r : Qc) (n : nat) :
  Qc_sum (repeat r n) = (QcN n * r)%Qc.
Proof.
  induction n as [|n IH].
  - cbn. change (QcN 0) with 0%Qc. now rewrite Qcmult_0_l.
  - cbn [repeat Qc_sum fold_right]. fold (Qc_sum (repeat r n)).
    rewrite IH, QcN_succ. ring.
Qed.

Lemma arithmetic_mean_repeat (r : Qc) (n : nat) :
  (1 <= n)%nat -> arithmetic_mean (repeat r n) = r.
Proof.
  intros Hn. unfold arithmetic_mean. rewrite Qc_sum_repeat, repeat_length.
  rewrite Qcmult_comm. apply Qcdiv_mult_l.
  apply not_eq_sym, Qclt_not_eq. change 0%Qc with (QcZ 0). apply QcN_pos. lia.
Qed.

Lemma map_Fin_repeat (r : Qc) (n : nat) :
  map Fin (repeat r n) = repeat (Fin r) n.
Proof. induction n; simpl; congruence. Qed.

Lemma var_constant (r : Qc) (n : nat) :
  (2 <= n)%nat -> Series.var (repeat (Fin r) n) = ofZ 0.
Proof.
  intros Hn. unfold Series.var.
  rewrite <- map_Fin_repeat, dropna_map_Fin, length_map, repeat_length.
  replace (n <=? 1)%nat with false by (symmetry; apply Nat.leb_gt; lia).
  rewrite fsum_map_Fin. unfold ofN.
  rewrite fdiv_Fin_pos by (apply QcN_pos; lia).
  fold (arithmetic_mean (repeat r n)) in |- *.
  replace (Qc_sum (repeat r n) / QcN n)%Qc with r.
  2:{ symmetry. pose proof (arithmetic_mean_repeat r (n := n) ltac:(lia)) as H.
      unfold arithmetic_mean in H. now rewrite repeat_length in H. }
  rewrite map_map.
  rewrite (map_ext_in _ (fun _ : Qc => ofZ 0)).
  2:{ intros a Ha. apply repeat_spec in Ha. subst a.
      rewrite fsub_self. unfold ofZ, fmul. f_equal; apply Qcmult_0_l. }
  assert (Hz : forall X : list Qc, fsum (map (fun _ => ofZ 0) X) = ofZ 0).
  { induction X as [|x X IH]; [reflexivity|].
    cbn [map]. change (fsum (ofZ 0 :: map (fun _ : Qc => ofZ 0) X))
      with (ofZ 0 + fsum (map (fun _ : Qc => ofZ 0) X))%F.
    rewrite IH. unfold ofZ, fadd. f_equal; apply Qcplus_0_l. }
  rewrite Hz. unfold ofZ at 1.
  rewrite fdiv_Fin_pos by (apply QcN_pos; lia).
  unfold ofZ. f_equal; apply Qcmult_0_l.
Qed.

Section ConstantReturns.

Variable np_sqrt : Qc -> Qc.
Hypothesis np_sqrt_0 : np_sqrt (QcZ 0) = QcZ 0.

Lemma std_of_zero_variance (returns : Series.Series) :
  Series.var returns = ofZ 0 -> Series.std np_sqrt returns = ofZ 0.
Proof.
  intros H. unfold Series.std. rewrite H. unfold ofZ, fsqrt.
  change (sign (QcZ 0)) with Eq. cbv iota. now rewrite np_sqrt_0.
Qed.

(** When the variance of the returns is 0 (and the square root of 0 is 0)
    both metrics are 0. *)
Theorem zero_variance_metrics (returns : Series.Series) :
  Series.var returns = ofZ 0 ->
  volatility_of np_sqrt returns = ofZ 0 /\ sharpe_of np_sqrt returns = ofZ 0.
Proof. intros H. apply zero_std_metrics, std_of_zero_variance, H. Qed.

End ConstantReturns.

(** ** The properties on sample data *)

Lemma approx_sqrt_nonneg (q : Qc) :
  (QcZ 0 <= q)%Qc -> (QcZ 0 <= approx_sqrt q)%Qc.
Proof.
  intros _. unfold approx_sqrt. qc2q.
  apply Qmult_le_0_compat.
  - change (inject_Z 0 <= inject_Z (Z.sqrt (Qfloor (q * inject_Z (10 ^ 12)))))%Q.
    rewrite <- Zle_Qle. apply Z.sqrt_nonneg.
  - apply Qinv_le_0_compat. unfold Qle. simpl. lia.
Qed.

Lemma Some_Fin_eq (a b : Qc) : (a == b)%Q -> Some (Fin a) = Some (Fin b).
Proof. intros H. now rewrite (@Fin_eq a b H). Qed.

Lemma ramp210_length : length ramp210 = 210%nat.
Proof. unfold ramp210. now rewrite length_map, length_seq. Qed.

(** C4 on the closes [1, 2, ..., 210]: position 49 holds the mean of the
    first fifty closes and position 48 the marker; for the long average
    position 209 holds the mean of the closes at 10..209, position 198 the
    marker. *)
Lemma moving_averages_are_trailing_means_witness :
  nth_error (MA50 (map Fin ramp210)) 49
  = Some (Fin (arithmetic_mean (slice 0 49 ramp210)))
  /\ nth_error (MA50 (map Fin ramp210)) 48 = Some NaN
  /\ nth_error (MA200 (map Fin ramp210)) 209
     = Some (Fin (arithmetic_mean (slice 10 209 ramp210)))
  /\ nth_error (MA200 (map Fin ramp210)) 198 = Some NaN.
Proof.
  split; [|split; [|split]].
  - apply (proj1 (@moving_averages_are_trailing_means ramp210 49
                    ltac:(rewrite ramp210_length; lia))). lia.
  - apply (proj1 (proj2 (@moving_averages_are_trailing_means ramp210 48
                    ltac:(rewrite ramp210_length; lia)))). lia.
  - apply (proj1 (proj2 (proj2 (@moving_averages_are_trailing_means ramp210 209
                    ltac:(rewrite ramp210_length; lia))))). lia.
  - apply (proj1 (proj2 (proj2 (proj2 (@moving_averages_are_trailing_means ramp210 198
                    ltac:(rewrite ramp210_length; lia)))))). lia.
Defined.

Lemma positive_closes (l : list Z) :
  forallb (fun z => (0 <? z)%Z) l = true ->
  Forall (fun c => (QcZ 0 < c)%Qc) (closes_of l).
Proof.
  induction l as [|z l IH]; intros H; [constructor|].
  cbn in H. apply andb_prop in H. destruct H as [Hz Hl].
  constructor; [|exact (IH Hl)].
  apply Z.ltb_lt in Hz. qc2q. unfold Qlt. simpl. lia.
Qed.

(** C5 on the closes [100, 110, 121]. *)
Lemma returns_of_closes_witness :
  length (returns (map Fin (closes_of [100; 110; 121]%Z))) = 2%nat
  /\ nth_error (returns (map Fin (closes_of [100; 110; 121]%Z))) 1
     = Some (Fin (QcZ 121 / QcZ 110 - QcZ 1)%Qc).
Proof.
  destruct (@returns_of_closes (closes_of [100; 110; 121]%Z)) as [Hl [Hn _]].
  - discriminate.
  - apply positive_closes. reflexivity.
  - split; [exact Hl|]. apply (Hn 2%nat). simpl. lia.
Defined.

(** C6 at the last position of twenty closes [1..20]. *)
Lemma bollinger_bands_ordered_witness :
  let close := map Fin ramp20 in
  fleb (nth 19 (BB_Lower approx_sqrt close) NaN) (nth 19 (BB_Mid close) NaN) = true
  /\ fleb (nth 19 (BB_Mid close) NaN) (nth 19 (BB_Upper approx_sqrt close) NaN) = true.
Proof.
  intros close.
  apply (@bollinger_bands_ordered approx_sqrt approx_sqrt_nonneg close 19).
  - apply nth_error_nth'. vm_compute. lia.
  - apply nth_error_nth'. vm_compute. lia.
  - apply nth_error_nth'. vm_compute. lia.
  - vm_compute. reflexivity.
  - vm_compute. reflexivity.
  - vm_compute. reflexivity.
Defined.

Lemma QcZ_nonzero (z : Z) : z <> 0%Z -> QcZ z <> QcZ 0.
Proof.
  intros Hz E. apply Hz. apply (f_equal (fun q : Qc => Qnum (this q))) in E.
  unfold QcZ, Q2Qc in E. cbn [this] in E.
  assert (H : forall x, Qred (inject_Z x) = inject_Z x).
  { intros x. apply Qred_identity. simpl. apply Z.gcd_1_r. }
  rewrite !H in E. exact E.
Qed.

(** C7 on the closes [100, 110, 121] and their halves. *)
Lemma norm_is_percentage_path_witness :
  nth_error (norm (map Fin (closes_of [100; 110; 121]%Z))) 0 = Some (ofZ 0)
  /\ norm (map Fin (map (Qcmult (Q2Qc (1 # 2))) (closes_of [100; 110; 121]%Z)))
     = norm (map Fin (closes_of [100; 110; 121]%Z)).
Proof.
  destruct (@norm_is_percentage_path (QcZ 100) (closes_of [110; 121]%Z))
    as [_ [H0 Hk]].
  - apply QcZ_nonzero. discriminate.
  - split; [exact H0|]. apply Hk. reflexivity.
Defined.

(** The scenario of the specification: both series give [0, 10, 21]. *)
Example norm_scenario :
  norm (map Fin (closes_of [100; 110; 121]%Z)) = map ofZ [0; 10; 21]%Z
  /\ norm (map Fin [QcZ 50; QcZ 55; Q2Qc (605 # 10)]) = map ofZ [0; 10; 21]%Z.
Proof.
  split; vm_compute;
    repeat (apply f_equal2; [apply Fin_eq; reflexivity|]); reflexivity.
Qed.

(** C8 on a request for [" zzzz "], a ticker without bars. *)
Lemma analyze_empty_history_is_404_witness :
  let data := {| req_ticker := Some " zzzz "%string; req_tickers := None;
                 req_period := None |} in
  analyze approx_sqrt sample_history sample_info data
  = (ErrorJson "No data found for 'ZZZZ'. Check the symbol and try again.", 404).
Proof.
  intros data.
  destruct (@analyze_empty_history_is_404 approx_sqrt unit sample_history
              sample_info data EmptyString) as [H _].
  - discriminate.
  - apply H. reflexivity.
Defined.

(** C9 on one usable ticker among failing ones, and on failing ones only. *)
Lemma compare_skips_failed_tickers_witness :
  compare_stocks sample_history ["AAA"; "BAD"; "ZZZZ"]%string "1y"
  = [trace_of sample_history "1y" "AAA"]
  /\ compare_stocks sample_history ["BAD"; "ZZZZ"]%string "1y" = [].
Proof.
  split.
  - apply (proj1 (compare_skips_failed_tickers sample_history
                    ["AAA"; "BAD"; "ZZZZ"]%string "1y")).
  - apply (proj2 (compare_skips_failed_tickers sample_history
                    ["BAD"; "ZZZZ"]%string "1y")).
    intros t [<-|[<-|[]]]; reflexivity.
Defined.

(** C10 on a single bar closing at 7, and on a previous close of 0. *)
Lemma single_bar_change_is_zero_witness :
  price_change [ofZ 7] = ofZ 0
  /\ price_change_pct [ofZ 7] = ofZ 0
  /\ price_change_pct [ofZ 0; ofZ 5] = ofZ 0.
Proof.
  destruct single_bar_change_is_zero as [H1 [_ H3]].
  destruct (H1 (QcZ 7)) as [Ha Hb].
  split; [exact Ha|]. split; [exact Hb|].
  apply H3. reflexivity.
Defined.

(** C2 on the closes [10, 11, 12, ..., 12] at position 14. *)
Lemma rsi_is_100_without_losses_witness :
  nth_error (rsi_series (map Fin rising15)) 14 = Some (ofZ 100).
Proof.
  apply (@rsi_is_100_without_losses (map Fin rising15) 14 (Q2Qc (1 # 7))).
  - vm_compute. apply Some_Fin_eq. reflexivity.
  - vm_compute. apply Some_Fin_eq. reflexivity.
  - reflexivity.
Defined.

(** C2 as stated fails on fifteen equal closes: at position 14 the mean
    loss is 0 and the RSI is NaN, the mean gain being 0 as well. *)
Lemma rsi_flat15_counterexample :
  ~ (forall (close : Series.Series) (i : nat),
        nth_error (loss close) i = Some (ofZ 0) ->
        nth_error (rsi_series close) i = Some (ofZ 100)).
Proof.
  intros H. specialize (H (map Fin flat15) 14%nat).
  assert (Hl : nth_error (loss (map Fin flat15)) 14 = Some (ofZ 0)).
  { vm_compute. apply Some_Fin_eq. reflexivity. }
  specialize (H Hl).
  assert (Hr : nth_error (rsi_series (map Fin flat15)) 14 = Some NaN)
    by (vm_compute; reflexivity).
  rewrite Hr in H. discriminate.
Qed.

(** C3 on the closes [10, 11, 12, ..., 12] at position 14. *)
Lemma rsi_in_range_where_defined_witness :
  exists v, nth_error (rsi_series (map Fin rising15)) 14 = Some (Fin v)
            /\ (QcZ 0 <= v)%Qc /\ (v <= QcZ 100)%Qc.
Proof.
  apply (@rsi_in_range_where_defined rising15 14).
  - simpl. lia.
  - exists 1%nat. split; [lia|]. simpl. intros E.
    apply (f_equal (fun q : Qc => Qnum (this q))) in E. discriminate.
Defined.

(** C3 with "defined" read as "enough history" fails on sixteen equal
    closes: at position 15 the RSI is NaN, which lies in no interval. *)
Lemma rsi_flat16_counterexample :
  ~ (forall (closes : list Qc) (i : nat),
        (14 <= i < length closes)%nat ->
        exists v, nth_error (rsi_series (map Fin closes)) i = Some v
                  /\ fleb (ofZ 0) v = true /\ fleb v (ofZ 100) = true).
Proof.
  intros H. destruct (H flat16 15%nat) as [v [Hv [H0 _]]].
  - simpl. lia.
  - assert (Hr : nth_error (rsi_series (map Fin flat16)) 15 = Some NaN)
      by (vm_compute; reflexivity).
    rewrite Hr in Hv. injection Hv as <-. discriminate.
Qed.

(** Two bars give one return: the volatility is NaN there too. *)
Example two_bar_volatility_is_nan (np_sqrt : Qc -> Qc) :
  let close := map Fin (closes_of [100; 110]%Z) in
  length (returns close) = 1%nat
  /\ volatility np_sqrt close = NaN
  /\ sharpe np_sqrt close = ofZ 0.
Proof.
  cbv zeta. split; [reflexivity|].
  apply (short_returns_metrics np_sqrt). vm_compute. lia.
Qed.

(** * Further properties of the code *)

(** ** The string methods *)

Lemma upper_ascii_idem (c : ascii) :
  Str.upper_ascii (Str.upper_ascii c) = Str.upper_ascii c.
Proof. ascii_cases c. Qed.

Lemma isspace_upper (c : ascii) :
  Str.isspace (Str.upper_ascii c) = Str.isspace c.
Proof. ascii_cases c. Qed.

Lemma is_lower_upper (c : ascii) : is_lower (Str.upper_ascii c) = false.
Proof. ascii_cases c. Qed.

Lemma upper_ascii_comma (c : ascii) :
  Ascii.eqb (Str.upper_ascii c) "," = Ascii.eqb c ",".
Proof. ascii_cases c. Qed.

Lemma upper_idem (s : string) : Str.upper (Str.upper s) = Str.upper s.
Proof.
  induction s as [|c s IH]; [reflexivity|].
  cbn [Str.upper]. now rewrite upper_ascii_idem, IH.
Qed.

Lemma upper_no_lower (s : string) : has_lower (Str.upper s) = false.
Proof.
  induction s as [|c s IH]; [reflexivity|].
  cbn [Str.upper has_lower]. now rewrite is_lower_upper, IH.
Qed.

Lemma upper_occurs_comma (s : string) :
  occurs "," (Str.upper s) = occurs "," s.
Proof.
  induction s as [|c s IH]; [reflexivity|].
  cbn [Str.upper occurs]. now rewrite upper_ascii_comma, IH.
Qed.

Lemma upper_nonempty (s : string) :
  Str.nonempty (Str.upper s) = Str.nonempty s.
Proof. now destruct s. Qed.

(** [lstrip] and [rstrip] *)

Lemma lstrip_blank (s : string) : blank s = true -> Str.lstrip s = EmptyString.
Proof.
  induction s as [|c s IH]; [reflexivity|].
  cbn [blank Str.lstrip]. intros H. apply andb_prop in H. destruct H as [Hc Hs].
  rewrite Hc. now apply IH.
Qed.

Lemma lstrip_empty_blank (s : string) :
  Str.lstrip s = EmptyString -> blank s = true.
Proof.
  induction s as [|c s IH]; [reflexivity|].
  cbn [blank Str.lstrip]. destruct (Str.isspace c); [|discriminate].
  intros H. now rewrite IH.
Qed.

Lemma lstrip_starts_clean (s : string) : starts_clean (Str.lstrip s) = true.
Proof.
  induction s as [|c s IH]; [reflexivity|].
  cbn [Str.lstrip]. destruct (Str.isspace c) eqn:E; [exact IH|].
  cbn. now rewrite E.
Qed.

Lemma lstrip_clean (s : string) : starts_clean s = true -> Str.lstrip s = s.
Proof.
  destruct s as [|c s]; [reflexivity|]. cbn.
  now destruct (Str.isspace c).
Qed.

Lemma rstrip_empty_blank (s : string) :
  Str.rstrip s = EmptyString <-> blank s = true.
Proof.
  induction s as [|c s IH]; [now split|].
  cbn [Str.rstrip blank].
  destruct (Str.rstrip s) as [|r0 r] eqn:E.
  - destruct (Str.isspace c); cbn.
    + split; intros _; [now apply IH|reflexivity].
    + split; discriminate.
  - split; [discriminate|]. intros H. apply andb_prop in H.
    destruct H as [_ H]. apply IH in H. discriminate.
Qed.

Lemma rstrip_starts_clean (s : string) :
  starts_clean s = true -> starts_clean (Str.rstrip s) = true.
Proof.
  destruct s as [|c s]; [reflexivity|]. cbn [starts_clean Str.rstrip].
  intros H. destruct (Str.rstrip s).
  - destruct (Str.isspace c) eqn:Ec; [discriminate|]. cbn. now rewrite Ec.
  - exact H.
Qed.

Lemma rstrip_ends_clean (s : string) : ends_clean (Str.rstrip s) = true.
Proof.
  induction s as [|c s IH]; [reflexivity|].
  cbn [Str.rstrip]. destruct (Str.rstrip s) as [|r0 r] eqn:E.
  - destruct (Str.isspace c) eqn:Ec; [reflexivity|]. cbn. now rewrite Ec.
  - exact IH.
Qed.

Lemma rstrip_clean (s : string) : ends_clean s = true -> Str.rstrip s = s.
Proof.
  induction s as [|c s IH]; [reflexivity|].
  destruct s as [|c' s].
  - cbn. now destruct (Str.isspace c).
  - intros H. change (ends_clean (String c (String c' s)))
      with (ends_clean (String c' s)) in H.
    cbn [Str.rstrip] in *. rewrite (IH H). reflexivity.
Qed.

Lemma strip_blank (s : string) :
  Str.strip s = EmptyString <-> blank s = true.
Proof.
  unfold Str.strip. split.
  - intros H. apply rstrip_empty_blank in H.
    destruct (Str.lstrip s) as [|c r] eqn:E; [now apply lstrip_empty_blank|].
    pose proof (lstrip_starts_clean s) as Hc. rewrite E in Hc.
    cbn in H, Hc. destruct (Str.isspace c); discriminate.
  - intros H. now rewrite (lstrip_blank _ H).
Qed.

Lemma strip_clean (s : string) :
  starts_clean (Str.strip s) = true /\ ends_clean (Str.strip s) = true.
Proof.
  unfold Str.strip. split.
  - apply rstrip_starts_clean, lstrip_starts_clean.
  - apply rstrip_ends_clean.
Qed.

Lemma strip_idem (s : string) : Str.strip (Str.strip s) = Str.strip s.
Proof.
  destruct (strip_clean s) as [H1 H2].
  unfold Str.strip at 1. rewrite (lstrip_clean _ H1). now apply rstrip_clean.
Qed.

Lemma lstrip_upper (s : string) :
  Str.lstrip (Str.upper s) = Str.upper (Str.lstrip s).
Proof.
  induction s as [|c s IH]; [reflexivity|].
  cbn [Str.upper Str.lstrip]. rewrite isspace_upper.
  now destruct (Str.isspace c).
Qed.

Lemma rstrip_upper (s : string) :
  Str.rstrip (Str.upper s) = Str.upper (Str.rstrip s).
Proof.
  induction s as [|c s IH]; [reflexivity|].
  cbn [Str.upper Str.rstrip]. rewrite IH, isspace_upper.
  destruct (Str.rstrip s); [now destruct (Str.isspace c)|reflexivity].
Qed.

Lemma strip_upper (s : string) :
  Str.strip (Str.upper s) = Str.upper (Str.strip s).
Proof. unfold Str.strip. now rewrite lstrip_upper, rstrip_upper. Qed.

Lemma occurs_lstrip (a : ascii) (s : string) :
  occurs a s = false -> occurs a (Str.lstrip s) = false.
Proof.
  induction s as [|c s IH]; [reflexivity|].
  cbn [Str.lstrip]. destruct (Str.isspace c); [|auto].
  cbn [occurs]. intros H. apply orb_false_elim in H. now apply IH.
Qed.

Lemma occurs_rstrip (a : ascii) (s : string) :
  occurs a s = false -> occurs a (Str.rstrip s) = false.
Proof.
  induction s as [|c s IH]; [reflexivity|].
  cbn [occurs Str.rstrip]. intros H. apply orb_false_elim in H.
  destruct H as [Hc Hs]. specialize (IH Hs).
  destruct (Str.rstrip s).
  - destruct (Str.isspace c); [reflexivity|]. cbn. now rewrite Hc.
  - cbn [occurs] in *. now rewrite Hc, IH.
Qed.

Lemma split_nonempty (sep : ascii) (s : string) : Str.split sep s <> [].
Proof.
  destruct s as [|c s]; [discriminate|]. cbn [Str.split].
  destruct (Ascii.eqb c sep); [discriminate|].
  destruct (Str.split sep s); discriminate.
Qed.

Lemma split_no_sep (sep : ascii) (s p : string) :
  In p (Str.split sep s) -> occurs sep p = false.
Proof.
  revert p. induction s as [|c s IH]; intros p.
  - intros [<-|[]]. reflexivity.
  - cbn [Str.split]. destruct (Ascii.eqb c sep) eqn:E.
    + intros [<-|H]; [reflexivity|now apply IH].
    + destruct (Str.split sep s) as [|h t] eqn:Es.
      * intros [<-|[]]. cbn. now rewrite E.
      * intros [<-|H].
        -- cbn [occurs]. rewrite E. apply IH. now left.
        -- apply IH. now right.
Qed.

Lemma join_split (sep : ascii) (s : string) : join sep (Str.split sep s) = s.
Proof.
  induction s as [|c s IH]; [reflexivity|].
  cbn [Str.split]. destruct (Ascii.eqb c sep) eqn:E.
  - apply Ascii.eqb_eq in E. subst c.
    destruct (Str.split sep s) as [|h t] eqn:Es; [now apply split_nonempty in Es|].
    change (join sep (EmptyString :: h :: t))
      with (String sep (join sep (h :: t))). now rewrite IH.
  - destruct (Str.split sep s) as [|h t] eqn:Es; [now apply split_nonempty in Es|].
    destruct t as [|h' t].
    + cbn in *. now rewrite IH.
    + change (join sep (String c h :: h' :: t))
        with (String c (join sep (h :: h' :: t))). now rewrite IH.
Qed.

(** X6: joining the pieces of [split] with the separator gives the string
    back; there is always a piece and no piece holds the separator. *)
Theorem split_join_round_trip (sep : ascii) (s : string) :
  join sep (Str.split sep s) = s
  /\ Str.split sep s <> []
  /\ (forall p, In p (Str.split sep s) -> occurs sep p = false).
Proof.
  split; [apply join_split|]. split; [apply split_nonempty|].
  intros p. apply split_no_sep.
Qed.

Lemma nonempty_strip_blank (s : string) :
  Str.nonempty (Str.strip s) = negb (blank s).
Proof.
  destruct (blank s) eqn:E.
  - apply strip_blank in E. now rewrite E.
  - destruct (Str.strip s) eqn:Es; [|reflexivity].
    apply strip_blank in Es. congruence.
Qed.

(** X5: every ticker the comparison route hands on is non-empty, holds no
    comma and no lower-case letter and has no white space at its ends. *)
Theorem parse_tickers_normal (raw t : string) :
  In t (parse_tickers raw) ->
  t <> EmptyString
  /\ occurs "," t = false
  /\ has_lower t = false
  /\ Str.strip t = t
  /\ Str.upper t = t.
Proof.
  unfold parse_tickers. intros H. apply in_map_iff in H.
  destruct H as [p [<- Hp]]. apply filter_In in Hp. destruct Hp as [Hp Hn].
  split; [|split; [|split; [|split]]].
  - intros E. rewrite <- upper_nonempty in Hn. now rewrite E in Hn.
  - rewrite upper_occurs_comma. unfold Str.strip.
    apply occurs_rstrip, occurs_lstrip. now apply (split_no_sep _ _ _ Hp).
  - apply upper_no_lower.
  - now rewrite strip_upper, strip_idem.
  - apply upper_idem.
Qed.

Theorem parse_tickers_empty_iff (raw : string) :
  parse_tickers raw = []
  <-> (forall p, In p (Str.split "," raw) -> blank p = true).
Proof.
  unfold parse_tickers. split.
  - intros H p Hp. apply map_eq_nil in H.
    destruct (blank p) eqn:E; [reflexivity|].
    assert (Hin : In p (filter (fun t => Str.nonempty (Str.strip t))
                           (Str.split "," raw))).
    { apply filter_In. split; [exact Hp|]. now rewrite nonempty_strip_blank, E. }
    rewrite H in Hin. destruct Hin.
  - intros H.
    assert (E : filter (fun t => Str.nonempty (Str.strip t)) (Str.split "," raw) = []).
    { induction (Str.split "," raw) as [|p l IH]; [reflexivity|].
      cbn [filter]. rewrite nonempty_strip_blank, (H p (or_introl eq_refl)).
      cbn. apply IH. intros q Hq. apply H. now right. }
    now rewrite E.
Qed.

Lemma last_cons (A : Type) (a d : A) (l : list A) :
  last (a :: l) d = last l a.
Proof.
  revert a d. induction l as [|x l IH]; intros a d; [reflexivity|].
  change (last (a :: x :: l) d) with (last (x :: l) d).
  now rewrite (IH x d), (IH x a).
Qed.

Lemma last_map (A B : Type) (f : A -> B) (l : list A) (d : A) :
  f (last l d) = last (map f l) (f d).
Proof.
  induction l as [|x l IH]; [reflexivity|].
  destruct l as [|y l]; [reflexivity|].
  change (last (x :: y :: l) d) with (last (y :: l) d).
  rewrite IH. reflexivity.
Qed.

Section MoreRoutes.

Variable np_sqrt : Qc -> Qc.
Variable Info : Type.
Variable history : string -> string -> result (list Bar).
Variable stock_info : string -> result Info.

Lemma get_ticker_nonempty (data : Request) :
  Str.nonempty (get_ticker data) = negb (blank (ticker_text data)).
Proof.
  unfold get_ticker. fold (ticker_text data).
  now rewrite upper_nonempty, nonempty_strip_blank.
Qed.

(** X1: a request whose ticker is missing, empty or made of ASCII white
    space only is answered with status 400 whatever the data source would
    do; a ticker of ASCII characters that is not of that kind is never
    answered with 400. *)
Theorem analyze_rejects_blank_ticker (data : Request) :
  (blank (ticker_text data) = true ->
   analyze np_sqrt history stock_info data
   = (ErrorJson "No ticker provided", 400))
  /\ (ascii_only (ticker_text data) = true ->
      blank (ticker_text data) = false ->
      snd (analyze np_sqrt history stock_info data) <> 400).
Proof.
  unfold analyze. rewrite get_ticker_nonempty.
  split; [intros H|intros _ H]; rewrite H; cbn.
  - reflexivity.
  - destruct (fetch_stock_data np_sqrt history stock_info
                (get_ticker data) (get_period data)) as [[s|]|e];
      cbn; discriminate.
Qed.



Lemma compare_unfold (data : Request) :
  compare Info history data
  = match parse_tickers (tickers_text data) with
    | [] => (ErrorJson "No tickers provided", 400)
    | _ => (CompareJson (compare_stocks history
                           (parse_tickers (tickers_text data))
                           (get_period data)), 200)
    end.
Proof.
  unfold compare. fold (tickers_text data).
  fold (parse_tickers (tickers_text data)).
  now destruct (parse_tickers (tickers_text data)).
Qed.

Lemma compare_stocks_length (tickers : list string) (period : string) :
  (length (compare_stocks history tickers period) <= length tickers)%nat.
Proof.
  unfold compare_stocks. rewrite compare_loop. cbn [app].
  rewrite length_map. apply filter_length_le.
Qed.

(** X4: for a request whose tickers field is absent or a string of ASCII
    characters, the comparison route answers 400 exactly when every
    comma-separated piece of the field is blank; otherwise it answers 200
    with at most one trace per ticker, failing fetches included: a failing
    fetch gives neither 404 nor 500. *)
Theorem compare_never_reports_a_fetch_failure (data : Request) :
  ascii_only (tickers_text data) = true ->
  (snd (compare Info history data) = 400
   <-> forall p, In p (Str.split "," (tickers_text data)) -> blank p = true)
  /\ (snd (compare Info history data) <> 400 ->
      exists traces,
        compare Info history data = (CompareJson traces, 200)
        /\ (length traces <= length (parse_tickers (tickers_text data)))%nat).
Proof.
  intros _. rewrite compare_unfold. rewrite <- parse_tickers_empty_iff.
  destruct (parse_tickers (tickers_text data)) as [|t ts] eqn:E.
  - split; [split; reflexivity|]. intros H. now contradiction H.
  - split.
    + split; intros H; discriminate.
    + intros _. eexists. split; [reflexivity|]. apply compare_stocks_length.
Qed.

(** X7: the traces of two requests in a row are those of the joined request:
    tickers are handled one by one, duplicates are kept. *)
Theorem compare_stocks_app (a b : list string) (period : string) :
  compare_stocks history (a ++ b) period
  = compare_stocks history a period ++ compare_stocks history b period.
Proof.
  unfold compare_stocks. rewrite !compare_loop. cbn [app].
  now rewrite filter_app, map_app.
Qed.

End MoreRoutes.

(** ** Range and volume summary *)

Lemma fltb_Fin (a b : Qc) : fltb (Fin a) (Fin b) = true <-> (a < b)%Qc.
Proof.
  unfold fltb. rewrite Qclt_alt.
  destruct (a ?= b)%Qc; split; intros H; try reflexivity; discriminate.
Qed.

Lemma fmax_Fin (a y : Qc) :
  exists m, Series.fmax (Fin a) (Fin y) = Fin m
            /\ (m = a \/ m = y) /\ (a <= m)%Qc /\ (y <= m)%Qc.
Proof.
  unfold Series.fmax. destruct (fltb (Fin a) (Fin y)) eqn:E.
  - apply fltb_Fin in E. exists y. repeat split; auto.
    + now apply Qclt_le_weak.
    + apply Qcle_refl.
  - exists a. repeat split; auto; [apply Qcle_refl|].
    apply Qcnot_lt_le. intros H. apply fltb_Fin in H. congruence.
Qed.

Lemma fmin_Fin (a y : Qc) :
  exists m, Series.fmin (Fin a) (Fin y) = Fin m
            /\ (m = a \/ m = y) /\ (m <= a)%Qc /\ (m <= y)%Qc.
Proof.
  unfold Series.fmin. destruct (fltb (Fin y) (Fin a)) eqn:E.
  - apply fltb_Fin in E. exists y. repeat split; auto.
    + now apply Qclt_le_weak.
    + apply Qcle_refl.
  - exists a. repeat split; auto; [apply Qcle_refl|].
    apply Qcnot_lt_le. intros H. apply fltb_Fin in H. congruence.
Qed.

Lemma fold_fmax_Fin (l : list Qc) (a : Qc) :
  exists m, fold_left Series.fmax (map Fin l) (Fin a) = Fin m
            /\ In m (a :: l) /\ forall x, In x (a :: l) -> (x <= m)%Qc.
Proof.
  revert a. induction l as [|y l IH]; intros a.
  - exists a. split; [reflexivity|]. split; [now left|].
    intros x [<-|[]]. apply Qcle_refl.
  - cbn [map fold_left].
    destruct (fmax_Fin a y) as [a' [-> [Ha' [Haa Hya]]]].
    destruct (IH a') as [m [-> [Hin Hall]]].
    exists m. split; [reflexivity|]. split.
    + destruct Hin as [<-|Hin]; [|now right; right].
      destruct Ha' as [->| ->]; [now left|now right; left].
    + intros x [<-|[<-|Hx]].
      * apply Qcle_trans with a'; [exact Haa|]. apply Hall. now left.
      * apply Qcle_trans with a'; [exact Hya|]. apply Hall. now left.
      * apply Hall. now right.
Qed.

Lemma fold_fmin_Fin (l : list Qc) (a : Qc) :
  exists m, fold_left Series.fmin (map Fin l) (Fin a) = Fin m
            /\ In m (a :: l) /\ forall x, In x (a :: l) -> (m <= x)%Qc.
Proof.
  revert a. induction l as [|y l IH]; intros a.
  - exists a. split; [reflexivity|]. split; [now left|].
    intros x [<-|[]]. apply Qcle_refl.
  - cbn [map fold_left].
    destruct (fmin_Fin a y) as [a' [-> [Ha' [Haa Hya]]]].
    destruct (IH a') as [m [-> [Hin Hall]]].
    exists m. split; [reflexivity|]. split.
    + destruct Hin as [<-|Hin]; [|now right; right].
      destruct Ha' as [->| ->]; [now left|now right; left].
    + intros x [<-|[<-|Hx]].
      * apply Qcle_trans with a'; [|exact Haa]. apply Hall. now left.
      * apply Qcle_trans with a'; [|exact Hya]. apply Hall. now left.
      * apply Hall. now right.
Qed.

Lemma w52_high_spec (b : Bar) (hist : list Bar) :
  exists m, w52_high (b :: hist) = Fin m
            /\ In m (map High (b :: hist))
            /\ forall x, In x (map High (b :: hist)) -> (x <= m)%Qc.
Proof.
  unfold w52_high, Series.max, col.
  rewrite <- (map_map High Fin), dropna_map_Fin. cbn [map].
  apply fold_fmax_Fin.
Qed.

Lemma w52_low_spec (b : Bar) (hist : list Bar) :
  exists m, w52_low (b :: hist) = Fin m
            /\ In m (map Low (b :: hist))
            /\ forall x, In x (map Low (b :: hist)) -> (m <= x)%Qc.
Proof.
  unfold w52_low, Series.min, col.
  rewrite <- (map_map Low Fin), dropna_map_Fin. cbn [map].
  apply fold_fmin_Fin.
Qed.

(** Rounding keeps the order. *)
Lemma round_half_even_mono (x y : Q) :
  (x <= y)%Q -> (round_half_even x <= round_half_even y)%Z.
Proof.
  intros Hxy. unfold round_half_even.
  pose proof (Qfloor_resp_le x y Hxy) as Hf.
  pose proof (Qfloor_le y) as Hy.
  pose proof (Qlt_floor x) as Hx.
  destruct (Z.eq_dec (Qfloor x) (Qfloor y)) as [E|N].
  - rewrite E.
    destruct (Qcompare (x - inject_Z (Qfloor y)) (1 # 2)) eqn:Ex;
      destruct (Qcompare (y - inject_Z (Qfloor y)) (1 # 2)) eqn:Ey;
      cmp_fact Ex; cmp_fact Ey;
      try (exfalso; lra); destruct (Z.even (Qfloor y)); lia.
  - destruct (Qcompare (x - inject_Z (Qfloor x)) (1 # 2));
      destruct (Qcompare (y - inject_Z (Qfloor y)) (1 # 2));
      destruct (Z.even (Qfloor x)); destruct (Z.even (Qfloor y)); lia.
Qed.

Lemma round_mono (a b : Qc) (n : nat) :
  (a <= b)%Qc -> fleb (round (Fin a) n) (round (Fin b) n) = true.
Proof.
  intros H. unfold round. cbv zeta. apply fleb_Fin.
  set (p := (10 ^ Z.of_nat n)%Z).
  assert (Hp : (0 < p)%Z) by (apply Z.pow_pos_nonneg; lia).
  assert (HP : (0 < inject_Z p)%Q).
  { change 0%Q with (inject_Z 0). now rewrite <- Zlt_Qlt. }
  assert (Hab : (a * inject_Z p <= b * inject_Z p)%Q).
  { apply Qmult_le_compat_r; [exact H|]. now apply Qlt_le_weak. }
  apply round_half_even_mono in Hab. rewrite Zle_Qle in Hab.
  unfold Qcle. cbn [this Q2Qc]. rewrite !Qred_correct.
  unfold Qdiv. apply Qmult_le_compat_r; [exact Hab|].
  apply Qinv_le_0_compat. now apply Qlt_le_weak.
Qed.

(** X8: on a history with bars the high computed on line 55 is the High of
    one of the bars and no bar's High is above it, likewise the low of line
    56; the reported [w52_high] and [w52_low] are these two values rounded
    to two decimals, so that no bar's High, rounded alike, is above the
    reported high and no bar's Low, rounded alike, below the reported low. *)
Theorem reported_range_is_extremal
  (np_sqrt : Qc -> Qc) (Info : Type) (ticker : string) (info : Info)
  (hist : list Bar) :
  hist <> [] ->
  let snap := build_snapshot np_sqrt ticker info hist in
  exists bh bl,
    In bh hist /\ In bl hist
    /\ w52_high hist = Fin (High bh) /\ w52_low hist = Fin (Low bl)
    /\ snap_w52_high snap = round (Fin (High bh)) 2
    /\ snap_w52_low snap = round (Fin (Low bl)) 2
    /\ forall b, In b hist ->
         (High b <= High bh)%Qc /\ (Low bl <= Low b)%Qc
         /\ fleb (round (Fin (High b)) 2) (snap_w52_high snap) = true
         /\ fleb (snap_w52_low snap) (round (Fin (Low b)) 2) = true.
Proof.
  intros Hne snap. subst snap. cbn [build_snapshot snap_w52_high snap_w52_low].
  destruct hist as [|b0 hist]; [contradiction|].
  destruct (w52_high_spec b0 hist) as [mh [Eh [Ih Hh]]].
  destruct (w52_low_spec b0 hist) as [ml [El [Il Hl]]].
  apply in_map_iff in Ih. destruct Ih as [bh [<- Ih]].
  apply in_map_iff in Il. destruct Il as [bl [<- Il]].
  exists bh, bl. rewrite Eh, El.
  split; [exact Ih|]. split; [exact Il|].
  split; [reflexivity|]. split; [reflexivity|].
  split; [reflexivity|]. split; [reflexivity|].
  intros b Hb.
  assert (H1 : (High b <= High bh)%Qc) by (apply Hh; now apply in_map).
  assert (H2 : (Low bl <= Low b)%Qc) by (apply Hl; now apply in_map).
  split; [exact H1|]. split; [exact H2|].
  split; now apply round_mono.
Qed.

Lemma current_price_last (b : Bar) (hist : list Bar) :
  current_price (col Close (b :: hist)) = Fin (Close (last hist b)).
Proof.
  unfold current_price, Series.iloc_last, col.
  change (map (fun b0 => Fin (Close b0)) (b :: hist))
    with (Fin (Close b) :: map (fun b0 => Fin (Close b0)) hist).
  rewrite last_cons.
  symmetry. apply (last_map (fun b0 => Fin (Close b0))).
Qed.



(** X10: for volumes that are not negative the average volume is the mean
    volume rounded down. *)
Theorem avg_volume_is_floor_of_mean (hist : list Bar) :
  hist <> [] ->
  (forall b, In b hist -> (0 <= Volume b)%Z) ->
  let total := fold_right Z.add 0%Z (map Volume hist) in
  let n := Z.of_nat (length hist) in
  (n * avg_volume hist <= total < n * avg_volume hist + n)%Z
  /\ (0 <= avg_volume hist)%Z.
Proof.
  intros Hne Hv total n.
  assert (Hn : (0 < n)%Z) by (subst n; destruct hist; [contradiction|simpl; lia]).
  assert (Ht : (0 <= total)%Z).
  { subst total. clear Hne n Hn. induction hist as [|b hist IH]; [simpl; lia|].
    cbn [map fold_right]. pose proof (Hv b (or_introl eq_refl)).
    assert (0 <= fold_right Z.add 0 (map Volume hist))%Z
      by (apply IH; intros; apply Hv; now right). lia. }
  unfold avg_volume. fold total. fold n.
  rewrite Z.quot_div_nonneg by lia.
  pose proof (Z.mul_div_le total n Hn).
  pose proof (Z.mul_succ_div_gt total n Hn).
  pose proof (Z.div_pos total n Ht Hn).
  lia.
Qed.

(** ** Presentation rounding *)

Lemma round_half_even_bounds (x : Q) :
  (inject_Z (round_half_even x) - x <= 1 # 2)%Q
  /\ (x - inject_Z (round_half_even x) <= 1 # 2)%Q.
Proof.
  unfold round_half_even.
  pose proof (Qfloor_le x) as Hlo.
  pose proof (Qlt_floor x) as Hhi.
  rewrite inject_Z_plus in Hhi. change (inject_Z 1) with 1%Q in Hhi.
  set (f := Qfloor x) in *.
  destruct (Qcompare (x - inject_Z f) (1 # 2)) eqn:E.
  - apply Qeq_alt in E.
    destruct (Z.even f); [|rewrite inject_Z_plus; change (inject_Z 1) with 1%Q];
      split; lra.
  - apply Qlt_alt in E. split; lra.
  - apply Qgt_alt in E. rewrite inject_Z_plus. change (inject_Z 1) with 1%Q.
    split; lra.
Qed.

Lemma pow10_pos (n : nat) : (0 < 10 ^ Z.of_nat n)%Z.
Proof. apply Z.pow_pos_nonneg; lia. Qed.

Lemma round_Fin_spec (q : Qc) (n : nat) :
  exists (r : Qc) (z : Z),
    round (Fin q) n = Fin r
    /\ (r * QcZ (10 ^ Z.of_nat n) = QcZ z)%Qc
    /\ ((r - q) * QcZ (2 * 10 ^ Z.of_nat n) <= QcZ 1)%Qc
    /\ ((q - r) * QcZ (2 * 10 ^ Z.of_nat n) <= QcZ 1)%Qc.
Proof.
  unfold round. cbv zeta.
  set (p := (10 ^ Z.of_nat n)%Z).
  assert (Hp : (0 < p)%Z) by apply pow10_pos.
  set (z := round_half_even (q * inject_Z p)%Q).
  destruct (round_half_even_bounds (q * inject_Z p)%Q) as [B1 B2]. fold z in B1, B2.
  assert (HP : (0 < inject_Z p)%Q).
  { change 0%Q with (inject_Z 0). now rewrite <- Zlt_Qlt. }
  assert (E2 : (inject_Z (2 * p) == 2 * inject_Z p)%Q).
  { rewrite inject_Z_mult. reflexivity. }
  assert (Ez : (inject_Z z / inject_Z p * inject_Z p == inject_Z z)%Q).
  { field. lra. }
  eexists. exists z. split; [reflexivity|]. split; [|split].
  - apply Qc_is_canon. qc2q. exact Ez.
  - qc2q. rewrite E2. change (inject_Z 1) with 1%Q.
    setoid_replace ((inject_Z z / inject_Z p + - q) * (2 * inject_Z p))%Q
      with (2 * (inject_Z z - q * inject_Z p))%Q by (field; lra).
    lra.
  - qc2q. rewrite E2. change (inject_Z 1) with 1%Q.
    setoid_replace ((q + - (inject_Z z / inject_Z p)) * (2 * inject_Z p))%Q
      with (2 * (q * inject_Z p - inject_Z z))%Q by (field; lra).
    lra.
Qed.

(** X11: the reported price is less than a cent away from the last close. *)
Theorem reported_price_is_within_a_cent
  (np_sqrt : Qc -> Qc) (Info : Type) (ticker : string) (info : Info)
  (b : Bar) (hist : list Bar) :
  exists r : Qc,
    snap_current_price (build_snapshot np_sqrt ticker info (b :: hist)) = Fin r
    /\ ((r - Close (last hist b)) * QcZ 100 < QcZ 1)%Qc
    /\ ((Close (last hist b) - r) * QcZ 100 < QcZ 1)%Qc.
Proof.
  cbn [build_snapshot snap_current_price]. rewrite current_price_last.
  destruct (round_Fin_spec (Close (last hist b)) 2) as [r [z [E [_ [B1 B2]]]]].
  exists r. split; [exact E|].
  change (2 * 10 ^ Z.of_nat 2)%Z with 200%Z in B1, B2.
  set (q := Close (last hist b)) in *. clearbody q. clear E.
  split; qc2q; unfold inject_Z in *; lra.
Qed.

(** ** The price change *)

Lemma Qc_pos_nonzero (q : Qc) : (QcZ 0 < q)%Qc -> q <> QcZ 0.
Proof. intros H E. apply Qclt_not_eq in H. congruence. Qed.

Lemma price_change_of_closes (pre : list Qc) (p c : Qc) :
  Forall (fun x => (QcZ 0 < x)%Qc) (pre ++ [p; c]) ->
  price_change (map Fin (pre ++ [p; c])) = Fin (c - p)%Qc
  /\ price_change_pct (map Fin (pre ++ [p; c]))
     = Fin ((c - p) / p * QcZ 100)%Qc.
Proof.
  intros H.
  assert (Hp : (QcZ 0 < p)%Qc).
  { apply Forall_app in H. destruct H as [_ H]. now inversion H. }
  assert (Ecur : current_price (map Fin (pre ++ [p; c])) = Fin c).
  { unfold current_price, Series.iloc_last.
    change (pre ++ [p; c]) with (pre ++ [p] ++ [c]).
    rewrite app_assoc, map_app. cbn [map]. now rewrite last_last. }
  assert (Eprev : prev_price (map Fin (pre ++ [p; c])) = Fin p).
  { unfold prev_price, Series.iloc_last2.
    replace (1 <? length (map Fin (pre ++ [p; c])))%nat with true
      by (symmetry; apply Nat.ltb_lt; rewrite length_map, length_app; simpl; lia).
    change (pre ++ [p; c]) with (pre ++ [p] ++ [c]).
    rewrite app_assoc, map_app. cbn [map].
    rewrite removelast_last, map_app. cbn [map]. now rewrite last_last. }
  assert (Echg : price_change (map Fin (pre ++ [p; c])) = Fin (c - p)%Qc).
  { unfold price_change. now rewrite Ecur, Eprev. }
  split; [exact Echg|].
  unfold price_change_pct. rewrite Echg, Eprev.
  pose proof (Qc_pos_nonzero Hp) as Hp0.
  unfold truthy. destruct (sign p) eqn:Es;
    [apply sign_eq in Es; contradiction| |];
    rewrite fdiv_Fin_pos by exact Hp; reflexivity.
Qed.

Lemma scaled_change_sign (p c : Qc) :
  (QcZ 0 < p)%Qc ->
  ((QcZ 0 < (c - p) / p * QcZ 100)%Qc <-> (p < c)%Qc)
  /\ (((c - p) / p * QcZ 100 < QcZ 0)%Qc <-> (c < p)%Qc)
  /\ (((c - p) / p * QcZ 100)%Qc = QcZ 0 <-> c = p).
Proof.
  intros Hp.
  assert (Hp' : (0 < p)%Q) by (revert Hp; qc2q; unfold inject_Z; intros; lra).
  assert (Hi : (0 < / p)%Q) by now apply Qinv_lt_0_compat.
  assert (E : (this ((c - p) / p * QcZ 100)%Qc == (c - p) * (100 * / p))%Q).
  { qc2q. unfold Qdiv, inject_Z. ring. }
  assert (Hk : (0 < 100 * / p)%Q) by (apply Qmult_lt_0_compat; [lra|exact Hi]).
  set (k := (100 * / p)%Q) in *.
  split; [|split].
  - unfold Qclt. rewrite E. change (this (QcZ 0)) with 0%Q. split; intros H.
    + destruct (Qlt_le_dec p c) as [L|L]; [exact L|]. exfalso.
      assert (0 <= (p - c) * k)%Q by (apply Qmult_le_0_compat; lra).
      setoid_replace ((c - p) * k)%Q with (- ((p - c) * k))%Q in H by ring.
      lra.
    + apply Qmult_lt_0_compat; lra.
  - unfold Qclt. rewrite E. change (this (QcZ 0)) with 0%Q. split; intros H.
    + destruct (Qlt_le_dec c p) as [L|L]; [exact L|]. exfalso.
      assert (0 <= (c - p) * k)%Q by (apply Qmult_le_0_compat; lra).
      lra.
    + assert (0 < (p - c) * k)%Q by (apply Qmult_lt_0_compat; lra).
      setoid_replace ((c - p) * k)%Q with (- ((p - c) * k))%Q by ring.
      lra.
  - split; intros H.
    + apply Qc_is_canon. apply Qc_eq_Qeq in H. rewrite E in H.
      change (this (QcZ 0)) with 0%Q in H.
      apply Qmult_integral in H. destruct H as [H|H]; lra.
    + subst c. apply Qc_is_canon. rewrite E.
      change (this (QcZ 0)) with 0%Q. ring.
Qed.

(** X12: with two or more positive closes the price change is the last close
    minus the one before, and the percentage change has the sign of that
    move: positive exactly when the price rose, negative exactly when it
    fell, 0 exactly when it stayed. *)
Theorem price_change_pct_has_sign_of_move (pre : list Qc) (p c : Qc) :
  Forall (fun x => (QcZ 0 < x)%Qc) (pre ++ [p; c]) ->
  let close := map Fin (pre ++ [p; c]) in
  price_change close = Fin (c - p)%Qc
  /\ (fltb (ofZ 0) (price_change_pct close) = true <-> (p < c)%Qc)
  /\ (fltb (price_change_pct close) (ofZ 0) = true <-> (c < p)%Qc)
  /\ (price_change_pct close = ofZ 0 <-> c = p).
Proof.
  intros H close. subst close.
  destruct (price_change_of_closes pre p c H) as [E1 E2].
  assert (Hp : (QcZ 0 < p)%Qc).
  { apply Forall_app in H. destruct H as [_ H]. now inversion H. }
  destruct (@scaled_change_sign p c Hp) as [S1 [S2 S3]].
  rewrite E2. unfold ofZ. rewrite !fltb_Fin.
  split; [exact E1|]. split; [exact S1|]. split; [exact S2|].
  split; intros E.
  - apply S3. congruence.
  - f_equal. now apply S3.
Qed.

(** ** Rescaling the prices *)

Lemma Qc_mult_pos (k c : Qc) :
  (QcZ 0 < k)%Qc -> (QcZ 0 < c)%Qc -> (QcZ 0 < k * c)%Qc.
Proof.
  intros Hk Hc. qc2q. unfold inject_Z in *. now apply Qmult_lt_0_compat.
Qed.

Lemma pct_scaled (k y p : Qc) :
  k <> QcZ 0 -> p <> QcZ 0 -> pct (k * y) (k * p) = pct y p.
Proof.
  intros Hk Hp. unfold pct. change (QcZ 0) with 0%Qc in *.
  change (QcZ 1) with 1%Qc. field. split; assumption.
Qed.

Lemma pairs_pct_scaled (k p : Qc) (l : list Qc) :
  k <> QcZ 0 -> p <> QcZ 0 -> Forall (fun c => c <> QcZ 0) l ->
  pairs pct (k * p)%Qc (map (Qcmult k) l) = pairs pct p l.
Proof.
  intros Hk Hp Hl. revert p Hp. induction Hl as [|y l Hy Hl IH]; intros p Hp.
  - reflexivity.
  - cbn [map pairs]. rewrite pct_scaled by assumption. f_equal. now apply IH.
Qed.

Lemma returns_scaled (k : Qc) (closes : list Qc) :
  (QcZ 0 < k)%Qc ->
  Forall (fun c => (QcZ 0 < c)%Qc) closes ->
  returns (map Fin (map (Qcmult k) closes)) = returns (map Fin closes).
Proof.
  intros Hk Hpos. destruct closes as [|c l]; [reflexivity|].
  assert (Hpos' : Forall (fun c => (QcZ 0 < c)%Qc) (map (Qcmult k) (c :: l))).
  { apply Forall_map. eapply Forall_impl; [|exact Hpos].
    intros a Ha. now apply Qc_mult_pos. }
  change (map (Qcmult k) (c :: l)) with ((k * c)%Qc :: map (Qcmult k) l) in *.
  rewrite !returns_positive by assumption.
  f_equal. inversion Hpos as [|? ? Hc Hl]; subst.
  apply pairs_pct_scaled.
  - now apply Qc_pos_nonzero.
  - now apply Qc_pos_nonzero.
  - eapply Forall_impl; [|exact Hl]. intros a. apply Qc_pos_nonzero.
Qed.

(** X13: multiplying all (positive) closes by a positive factor changes
    neither the returns nor the volatility nor the Sharpe ratio. *)
Theorem risk_metrics_ignore_price_scale
  (np_sqrt : Qc -> Qc) (k : Qc) (closes : list Qc) :
  (QcZ 0 < k)%Qc ->
  Forall (fun c => (QcZ 0 < c)%Qc) closes ->
  returns (map Fin (map (Qcmult k) closes)) = returns (map Fin closes)
  /\ volatility np_sqrt (map Fin (map (Qcmult k) closes))
     = volatility np_sqrt (map Fin closes)
  /\ sharpe np_sqrt (map Fin (map (Qcmult k) closes))
     = sharpe np_sqrt (map Fin closes).
Proof.
  intros Hk Hpos. pose proof (returns_scaled Hk Hpos) as E.
  unfold volatility, sharpe. now rewrite E.
Qed.

(** ** A price that does not move *)

Lemma pairs_pct_repeat (c : Qc) (m : nat) :
  c <> QcZ 0 -> pairs pct c (repeat c m) = repeat (QcZ 0) m.
Proof.
  intros Hc. induction m as [|m IH]; [reflexivity|].
  cbn [repeat pairs]. rewrite IH. f_equal.
  unfold pct. change (QcZ 0) with 0%Qc in *. change (QcZ 1) with 1%Qc.
  field. exact Hc.
Qed.

(** X16: on three or more equal positive closes every daily return is 0,
    and the volatility and the Sharpe ratio are both 0 (the square root of 0
    being 0). *)
Theorem flat_prices_have_zero_risk (np_sqrt : Qc -> Qc) (c : Qc) (n : nat) :
  np_sqrt (QcZ 0) = QcZ 0 -> (QcZ 0 < c)%Qc -> (3 <= n)%nat ->
  returns (map Fin (repeat c n)) = repeat (ofZ 0) (n - 1)
  /\ volatility np_sqrt (map Fin (repeat c n)) = ofZ 0
  /\ sharpe np_sqrt (map Fin (repeat c n)) = ofZ 0.
Proof.
  intros H0 Hc Hn.
  assert (E : returns (map Fin (repeat c n)) = repeat (ofZ 0) (n - 1)).
  { destruct n as [|n]; [lia|]. cbn [repeat].
    rewrite returns_positive.
    - rewrite pairs_pct_repeat by now apply Qc_pos_nonzero.
      rewrite map_Fin_repeat. f_equal. lia.
    - change (c :: repeat c n) with (repeat c (S n)).
      apply Forall_forall. intros x Hx. apply repeat_spec in Hx. now subst x. }
  split; [exact E|].
  unfold volatility, sharpe. rewrite E.
  apply zero_variance_metrics; [exact H0|]. apply var_constant. lia.
Qed.

(** ** When the risk metrics are numbers *)

Lemma Qc_square_nonneg (a : Qc) : (QcZ 0 <= a * a)%Qc.
Proof. qc2q. unfold inject_Z. nra. Qed.

Lemma Qc_mult_nonneg (a b : Qc) :
  (QcZ 0 <= a)%Qc -> (QcZ 0 <= b)%Qc -> (QcZ 0 <= a * b)%Qc.
Proof.
  intros Ha Hb. qc2q. unfold inject_Z in *. now apply Qmult_le_0_compat.
Qed.

Lemma var_of_numbers (rs : list Qc) :
  (2 <= length rs)%nat ->
  exists v, Series.var (map Fin rs) = Fin v /\ (QcZ 0 <= v)%Qc.
Proof.
  intros Hn. unfold Series.var.
  rewrite dropna_map_Fin, length_map.
  replace (length rs <=? 1)%nat with false by (symmetry; apply Nat.leb_gt; lia).
  rewrite fsum_map_Fin. unfold ofN.
  rewrite fdiv_Fin_pos by (apply QcN_pos; lia).
  set (a := (Qc_sum rs / QcN (length rs))%Qc).
  rewrite map_map.
  rewrite (map_ext _ (fun x => Fin ((a - x) * (a - x))%Qc))
    by (intros x; reflexivity).
  rewrite <- (map_map (fun x => ((a - x) * (a - x))%Qc) Fin), fsum_map_Fin.
  rewrite fdiv_Fin_pos by (apply QcN_pos; lia).
  eexists. split; [reflexivity|].
  apply Qc_div_nonneg; [|apply QcN_pos; lia].
  apply Qc_sum_nonneg. apply Forall_forall. intros x Hx.
  apply in_map_iff in Hx. destruct Hx as [y [<- _]]. apply Qc_square_nonneg.
Qed.

Lemma returns_are_numbers (closes : list Qc) :
  Forall (fun c => (QcZ 0 < c)%Qc) closes ->
  exists rs, returns (map Fin closes) = map Fin rs
             /\ length rs = (length closes - 1)%nat.
Proof.
  intros H. destruct closes as [|c l].
  - exists []. split; reflexivity.
  - exists (pairs pct c l). split; [now apply returns_positive|].
    rewrite pairs_length. simpl. lia.
Qed.

Section NumbersOnly.

Variable np_sqrt : Qc -> Qc.

(** X14: with three or more positive closes the volatility is a number that
    is not negative (the square root being non-negative). *)
Theorem volatility_is_a_number_from_three_bars (closes : list Qc) :
  (forall q : Qc, (QcZ 0 <= q)%Qc -> (QcZ 0 <= np_sqrt q)%Qc) ->
  Forall (fun c => (QcZ 0 < c)%Qc) closes ->
  (3 <= length closes)%nat ->
  exists v, volatility np_sqrt (map Fin closes) = Fin v /\ (QcZ 0 <= v)%Qc.
Proof.
  intros Hsqrt Hpos Hlen.
  destruct (returns_are_numbers Hpos) as [rs [Er Hrs]].
  destruct (@var_of_numbers rs ltac:(lia)) as [v [Ev Hv]].
  unfold volatility, volatility_of, Series.std. rewrite Er, Ev.
  unfold fsqrt. destruct (sign v) eqn:Es;
    [| apply sign_lt in Es; exfalso; revert Es; now apply Qcle_not_lt |];
    (eexists; split; [reflexivity|];
     apply Qc_mult_nonneg; [apply Qc_mult_nonneg|];
     [now apply Hsqrt | apply Hsqrt; discriminate | discriminate]).
Qed.

(** X15: on positive closes the Sharpe ratio is always a number, never NaN
    or an infinity (the square root of 252 being positive). *)
Theorem sharpe_is_always_a_number (closes : list Qc) :
  (QcZ 0 < np_sqrt (QcZ 252))%Qc ->
  Forall (fun c => (QcZ 0 < c)%Qc) closes ->
  exists s, sharpe np_sqrt (map Fin closes) = Fin s.
Proof.
  intros Hsqrt Hpos.
  destruct (returns_are_numbers Hpos) as [rs [Er Hrs]].
  unfold sharpe, sharpe_of. rewrite Er.
  destruct (Series.std np_sqrt (map Fin rs)) as [s| | |] eqn:Estd;
    try (eexists; reflexivity).
  - destruct (fgtb (Fin s) (ofZ 0)) eqn:Eg; [|eexists; reflexivity].
    unfold fgtb in Eg. apply fltb_Fin in Eg.
    assert (Hne : rs <> []).
    { intros ->. cbn in Estd. discriminate. }
    rewrite (mean_map_Fin Hne). unfold ofZ, fmul.
    rewrite fdiv_Fin_pos by (now apply Qc_mult_pos).
    eexists. reflexivity.
  - exfalso. unfold Series.std in Estd.
    destruct (Nat.le_gt_cases (length rs) 1) as [Hs|Hl].
    + unfold Series.var in Estd. rewrite dropna_map_Fin, length_map in Estd.
      apply Nat.leb_le in Hs. rewrite Hs in Estd. discriminate.
    + destruct (@var_of_numbers rs ltac:(lia)) as [v [Ev _]].
      rewrite Ev in Estd. cbn in Estd. destruct (sign v); discriminate.
Qed.

End NumbersOnly.

(** ** The warm-up of the rolling indicators *)

Lemma rolling_warm_up (w : nat) (agg : Series.Series -> float)
  (s : Series.Series) (i : nat) :
  (i < length s)%nat -> (i + 1 < w)%nat ->
  nth_error (Series.rolling w agg s) i = Some NaN.
Proof.
  intros Hi Hw. unfold Series.rolling. rewrite nth_error_map_seq by exact Hi.
  assert (H : (length (Series.dropna (Series.window w i s)) < w)%nat).
  { unfold Series.dropna.
    pose proof (filter_length_le notna (Series.window w i s)) as Hf.
    unfold Series.window in *. rewrite length_skipn, length_firstn in Hf. lia. }
  apply Nat.ltb_lt in H. now rewrite H.
Qed.

Lemma rolling_length (w : nat) (agg : Series.Series -> float) (s : Series.Series) :
  length (Series.rolling w agg s) = length s.
Proof. unfold Series.rolling. now rewrite length_map, length_seq. Qed.

(** X17: the moving averages are NaN before their window is full (positions
    below 49 and 199) and so are both Bollinger bands below position 19, on
    every series. *)
Theorem indicators_warm_up (np_sqrt : Qc -> Qc) (close : Series.Series) (i : nat) :
  (i < length close)%nat ->
  ((i < 49)%nat -> nth_error (MA50 close) i = Some NaN)
  /\ ((i < 199)%nat -> nth_error (MA200 close) i = Some NaN)
  /\ ((i < 19)%nat ->
      nth_error (BB_Upper np_sqrt close) i = Some NaN
      /\ nth_error (BB_Lower np_sqrt close) i = Some NaN).
Proof.
  intros Hi. split; [|split]; intros Hw.
  - apply rolling_warm_up; [exact Hi|lia].
  - apply rolling_warm_up; [exact Hi|lia].
  - assert (Hm : nth_error (BB_Mid close) i = Some NaN)
      by (apply rolling_warm_up; [exact Hi|lia]).
    assert (Hs : nth_error (map (fmul (ofZ 2)) (BB_Std np_sqrt close)) i
                 = Some NaN).
    { rewrite nth_error_map. unfold BB_Std, Series.rolling_std.
      rewrite rolling_warm_up by (try exact Hi; lia). reflexivity. }
    unfold BB_Upper, BB_Lower.
    now rewrite (nth_error_zip_with fadd _ _ _ Hm Hs),
                (nth_error_zip_with fsub _ _ _ Hm Hs).
Qed.

Lemma last_nth_error (A : Type) (l : list A) (d x : A) :
  l <> [] -> nth_error l (length l - 1) = Some x -> last l d = x.
Proof.
  induction l as [|a l IH]; [contradiction|]. intros _ H.
  destruct l as [|b l]; [cbn in *; congruence|].
  change (last (a :: b :: l) d) with (last (b :: l) d).
  apply IH; [discriminate|].
  cbn [length] in *. replace (S (S (length l)) - 1)%nat with (S (length l)) in H by lia.
  cbn [nth_error] in H. now replace (S (length l) - 1)%nat with (length l) by lia.
Qed.

(** X18: on a history of 1 to 14 bars the RSI, and the one reported in the
    snapshot, is NaN. *)
Theorem short_history_has_no_rsi
  (np_sqrt : Qc -> Qc) (Info : Type) (ticker : string) (info : Info)
  (hist : list Bar) :
  (1 <= length hist <= 14)%nat ->
  rsi (col Close hist) = NaN
  /\ snap_rsi (build_snapshot np_sqrt ticker info hist) = NaN.
Proof.
  intros Hlen.
  assert (E : rsi (col Close hist) = NaN).
  { unfold rsi, Series.iloc_last, col.
    rewrite <- (map_map Close Fin).
    apply last_nth_error.
    - intros E0. apply (f_equal (@length float)) in E0.
      rewrite rsi_series_length, !length_map in E0. simpl in E0. lia.
    - rewrite rsi_series_length, !length_map.
      apply rsi_before_14; rewrite ?length_map; lia. }
  split; [exact E|]. cbn [build_snapshot snap_rsi]. now rewrite E.
Qed.

(** ** Bollinger bands on a flat window *)

Lemma window_of_run (c : Qc) (pre post : list Qc) (n : nat) :
  (1 <= n)%nat ->
  Series.window n (length pre + (n - 1))
    (map Fin (pre ++ repeat c n ++ post))
  = repeat (Fin c) n.
Proof.
  intros Hn. unfold Series.window.
  replace (length pre + (n - 1) + 1)%nat with (length pre + n)%nat by lia.
  replace (length pre + n - n)%nat with (length pre) by lia.
  rewrite !map_app, map_Fin_repeat.
  rewrite firstn_app, length_map.
  replace (length pre + n - length pre)%nat with n by lia.
  rewrite firstn_all2 by (rewrite length_map; lia).
  rewrite firstn_app, repeat_length, Nat.sub_diag.
  rewrite firstn_all2 by (rewrite repeat_length; lia).
  cbn [firstn]. rewrite app_nil_r.
  rewrite skipn_app, length_map, Nat.sub_diag.
  rewrite skipn_all2 by (rewrite length_map; lia).
  reflexivity.
Qed.

Lemma dropna_repeat_Fin (c : Qc) (n : nat) :
  Series.dropna (repeat (Fin c) n) = repeat (Fin c) n.
Proof. rewrite <- map_Fin_repeat. apply dropna_map_Fin. Qed.

(** X20: at the end of twenty equal closes both bands and the midline are
    that close (the square root of 0 being 0). *)
Theorem bollinger_bands_collapse_on_flat_window
  (np_sqrt : Qc -> Qc) (c : Qc) (pre post : list Qc) :
  np_sqrt (QcZ 0) = QcZ 0 ->
  let close := map Fin (pre ++ repeat c 20 ++ post) in
  let i := (length pre + 19)%nat in
  nth_error (BB_Mid close) i = Some (Fin c)
  /\ nth_error (BB_Upper np_sqrt close) i = Some (Fin c)
  /\ nth_error (BB_Lower np_sqrt close) i = Some (Fin c).
Proof.
  intros H0 close i.
  assert (Hi : (i < length close)%nat).
  { subst i close. rewrite length_map, !length_app, repeat_length. lia. }
  assert (Hw : Series.dropna (Series.window 20 i close) = repeat (Fin c) 20).
  { subst i close.
    change (length pre + 19)%nat with (length pre + (20 - 1))%nat.
    rewrite (@window_of_run c pre post 20) by lia.
    apply dropna_repeat_Fin. }
  assert (Hm : nth_error (BB_Mid close) i = Some (Fin c)).
  { unfold BB_Mid, Series.rolling_mean, Series.rolling.
    rewrite nth_error_map_seq by exact Hi. cbv zeta. rewrite Hw, repeat_length.
    cbn [Nat.ltb Nat.leb]. f_equal.
    rewrite <- map_Fin_repeat, mean_map_Fin by discriminate.
    f_equal. apply arithmetic_mean_repeat. lia. }
  assert (Hs : nth_error (map (fmul (ofZ 2)) (BB_Std np_sqrt close)) i
               = Some (ofZ 0)).
  { rewrite nth_error_map. unfold BB_Std, Series.rolling_std, Series.rolling.
    rewrite nth_error_map_seq by exact Hi. cbv zeta. rewrite Hw, repeat_length.
    cbn [Nat.ltb Nat.leb option_map]. f_equal.
    unfold Series.std. rewrite var_constant by lia.
    unfold ofZ, fsqrt. change (sign (QcZ 0)) with Eq. cbv iota. rewrite H0.
    unfold fmul. f_equal; apply Qcmult_0_r. }
  split; [exact Hm|].
  unfold BB_Upper, BB_Lower.
  rewrite (nth_error_zip_with fadd _ _ _ Hm Hs),
          (nth_error_zip_with fsub _ _ _ Hm Hs).
  split; f_equal; unfold ofZ, fsub, fadd, fneg; f_equal;
    change (QcZ 0) with 0%Qc; ring.
Qed.

(** ** RSI on a falling window *)

Lemma up_down_of_nonpos (d : Qc) :
  (d <= QcZ 0)%Qc -> up d = QcZ 0 /\ down d = (- d)%Qc.
Proof.
  intros H. unfold up, down. split.
  - destruct (Qccompare d (QcZ 0)) eqn:E.
    + now apply Qceq_alt in E.
    + reflexivity.
    + apply Qcgt_alt in E. exfalso. revert E. now apply Qcle_not_lt.
  - destruct (Qccompare (QcZ 0) d) eqn:E; try reflexivity.
    apply Qclt_alt in E. exfalso. revert E. now apply Qcle_not_lt.
Qed.

Lemma rsi_of_rs_no_gain (L : Qc) :
  (QcZ 0 < L)%Qc -> rsi_of_rs (ofZ 0 / Fin L) = ofZ 0.
Proof.
  intros HL. unfold ofZ at 1. rewrite fdiv_Fin_pos by exact HL.
  replace (QcZ 0 / L)%Qc with (QcZ 0)
    by (unfold Qcdiv; change (QcZ 0) with 0%Qc; now rewrite Qcmult_0_l).
  apply Fin_eq. vm_compute. reflexivity.
Qed.

(** X22: with enough history, no rise among the trailing 14 deltas and at
    least one fall, the mean gain is 0 and the RSI is 0. *)
Theorem rsi_is_0_on_falling_window (closes : list Qc) (i : nat) :
  (14 <= i < length closes)%nat ->
  (forall j, (i - 13 <= j <= i)%nat ->
     (nth j closes (QcZ 0) <= nth (j - 1) closes (QcZ 0))%Qc) ->
  (exists j, (i - 13 <= j <= i)%nat
             /\ (nth j closes (QcZ 0) < nth (j - 1) closes (QcZ 0))%Qc) ->
  nth_error (gain (map Fin closes)) i = Some (ofZ 0)
  /\ nth_error (rsi_series (map Fin closes)) i = Some (ofZ 0).
Proof.
  intros Hi Hdown [j [Hj Hlt]].
  assert (Hle : forall a b : Qc, (a <= b)%Qc -> (a - b <= QcZ 0)%Qc).
  { intros a b H. qc2q. unfold inject_Z. lra. }
  assert (Hneg : forall a b : Qc, (a < b)%Qc -> (a - b < QcZ 0)%Qc).
  { intros a b H. qc2q. unfold inject_Z. lra. }
  assert (Hopp : forall a : Qc, (a < QcZ 0)%Qc -> (QcZ 0 < - a)%Qc).
  { intros a H. qc2q. unfold inject_Z in *. lra. }
  assert (EG : mean_gain closes i = QcZ 0).
  { apply arithmetic_mean_zeros. apply (trailing_forall up); [exact Hi|].
    intros k Hk. apply up_down_of_nonpos, Hle, Hdown, Hk. }
  assert (PL : (QcZ 0 < mean_loss closes i)%Qc).
  { pose proof (@trailing_map_nth down closes i j Hi Hj) as Id.
    set (d := (nth j closes (QcZ 0) - nth (j - 1) closes (QcZ 0))%Qc) in *.
    assert (Hd : (d < QcZ 0)%Qc) by (subst d; now apply Hneg).
    apply arithmetic_mean_positive with (x := down d); [|exact Id|].
    - apply (trailing_forall down); [exact Hi|]. intros. apply down_nonneg.
    - destruct (up_down_of_nonpos (Qclt_le_weak _ _ Hd)) as [_ ->].
      now apply Hopp. }
  split.
  - destruct closes as [|c l]; [simpl in Hi; lia|]. simpl in Hi.
    rewrite gain_at by lia.
    replace (i <? 14)%nat with false by (symmetry; apply Nat.ltb_ge; lia).
    fold (mean_gain (c :: l) i). now rewrite EG.
  - rewrite rsi_series_of_closes by lia.
    replace (i <? 14)%nat with false by (symmetry; apply Nat.ltb_ge; lia).
    rewrite EG. fold (ofZ 0). now rewrite (rsi_of_rs_no_gain PL).
Qed.

(** ** The further properties on sample data *)

Lemma analyze_rejects_blank_ticker_witness :
  analyze approx_sqrt sample_history sample_info (sample_request "  ")
  = (ErrorJson "No ticker provided", 400)
  /\ snd (analyze approx_sqrt sample_history sample_info (sample_request "aaa"))
     <> 400%nat.
Proof.
  split.
  - apply (proj1 (analyze_rejects_blank_ticker approx_sqrt sample_history
                    sample_info (sample_request "  "))). reflexivity.
  - apply (proj2 (analyze_rejects_blank_ticker approx_sqrt sample_history
                    sample_info (sample_request "aaa"))); reflexivity.
Defined.



Lemma compare_never_reports_a_fetch_failure_witness :
  snd (compare unit sample_history (sample_comparison " , ,")) = 400%nat
  /\ exists traces,
       compare unit sample_history (sample_comparison "bad,zzzz")
       = (CompareJson traces, 200).
Proof.
  split.
  - apply (proj1 (@compare_never_reports_a_fetch_failure unit sample_history
                    (sample_comparison " , ,") eq_refl)).
    intros p [<-|[<-|[<-|[]]]]; reflexivity.
  - destruct (proj2 (@compare_never_reports_a_fetch_failure unit sample_history
                       (sample_comparison "bad,zzzz") eq_refl)) as [traces [H _]].
    + discriminate.
    + exists traces. exact H.
Defined.

Lemma parse_tickers_normal_witness :
  "MSFT"%string <> EmptyString
  /\ occurs "," "MSFT" = false
  /\ has_lower "MSFT" = false
  /\ Str.strip "MSFT" = "MSFT"%string
  /\ Str.upper "MSFT" = "MSFT"%string.
Proof.
  apply (@parse_tickers_normal "aapl, msft ,"%string "MSFT"%string).
  right. left. reflexivity.
Defined.

Lemma reported_range_is_extremal_witness :
  let snap := build_snapshot approx_sqrt "AAA" tt sample_bars in
  exists bh bl,
    In bh sample_bars /\ In bl sample_bars
    /\ w52_high sample_bars = Fin (High bh) /\ w52_low sample_bars = Fin (Low bl)
    /\ snap_w52_high snap = round (Fin (High bh)) 2
    /\ snap_w52_low snap = round (Fin (Low bl)) 2
    /\ forall b, In b sample_bars ->
         (High b <= High bh)%Qc /\ (Low bl <= Low b)%Qc
         /\ fleb (round (Fin (High b)) 2) (snap_w52_high snap) = true
         /\ fleb (snap_w52_low snap) (round (Fin (Low b)) 2) = true.
Proof. apply reported_range_is_extremal. discriminate. Defined.


Lemma avg_volume_is_floor_of_mean_witness :
  (3 * avg_volume sample_bars <= 3000 < 3 * avg_volume sample_bars + 3)%Z
  /\ (0 <= avg_volume sample_bars)%Z.
Proof.
  apply (@avg_volume_is_floor_of_mean sample_bars); [discriminate|].
  intros b [<-|[<-|[<-|[]]]]; simpl; lia.
Defined.

Lemma price_change_pct_has_sign_of_move_witness :
  let close := map Fin (closes_of [100; 110; 121]%Z) in
  price_change close = Fin (QcZ 121 - QcZ 110)%Qc
  /\ (fltb (ofZ 0) (price_change_pct close) = true <-> (QcZ 110 < QcZ 121)%Qc)
  /\ (fltb (price_change_pct close) (ofZ 0) = true <-> (QcZ 121 < QcZ 110)%Qc)
  /\ (price_change_pct close = ofZ 0 <-> QcZ 121 = QcZ 110).
Proof.
  apply (@price_change_pct_has_sign_of_move [QcZ 100] (QcZ 110) (QcZ 121)).
  apply (positive_closes [100; 110; 121]%Z). reflexivity.
Defined.

Lemma flat_prices_have_zero_risk_witness :
  returns (map Fin (repeat (QcZ 50) 4)) = repeat (ofZ 0) 3
  /\ volatility approx_sqrt (map Fin (repeat (QcZ 50) 4)) = ofZ 0
  /\ sharpe approx_sqrt (map Fin (repeat (QcZ 50) 4)) = ofZ 0.
Proof.
  apply (@flat_prices_have_zero_risk approx_sqrt (QcZ 50) 4).
  - apply Qc_is_canon. reflexivity.
  - reflexivity.
  - lia.
Defined.

Lemma risk_metrics_ignore_price_scale_witness :
  let closes := closes_of [100; 110; 121]%Z in
  returns (map Fin (map (Qcmult (QcZ 2)) closes)) = returns (map Fin closes)
  /\ volatility approx_sqrt (map Fin (map (Qcmult (QcZ 2)) closes))
     = volatility approx_sqrt (map Fin closes)
  /\ sharpe approx_sqrt (map Fin (map (Qcmult (QcZ 2)) closes))
     = sharpe approx_sqrt (map Fin closes).
Proof.
  apply risk_metrics_ignore_price_scale; [reflexivity|].
  apply positive_closes. reflexivity.
Defined.

Lemma volatility_is_a_number_from_three_bars_witness :
  exists v, volatility approx_sqrt (map Fin (closes_of [100; 110; 121]%Z)) = Fin v
            /\ (QcZ 0 <= v)%Qc.
Proof.
  apply volatility_is_a_number_from_three_bars.
  - apply approx_sqrt_nonneg.
  - apply positive_closes. reflexivity.
  - simpl. lia.
Defined.

Lemma sharpe_is_always_a_number_witness :
  exists s, sharpe approx_sqrt (map Fin (closes_of [100; 110; 121]%Z)) = Fin s.
Proof.
  apply sharpe_is_always_a_number.
  - vm_compute. reflexivity.
  - apply positive_closes. reflexivity.
Defined.

Lemma indicators_warm_up_witness :
  nth_error (MA50 (map Fin ramp20)) 19 = Some NaN
  /\ nth_error (MA200 (map Fin ramp20)) 19 = Some NaN
  /\ nth_error (BB_Upper approx_sqrt (map Fin ramp20)) 18 = Some NaN
  /\ nth_error (BB_Lower approx_sqrt (map Fin ramp20)) 18 = Some NaN.
Proof.
  destruct (@indicators_warm_up approx_sqrt (map Fin ramp20) 19) as [H1 [H2 _]];
    [simpl; lia|].
  destruct (@indicators_warm_up approx_sqrt (map Fin ramp20) 18) as [_ [_ H3]];
    [simpl; lia|].
  split; [apply H1; lia|]. split; [apply H2; lia|]. apply H3. lia.
Defined.

Lemma short_history_has_no_rsi_witness :
  rsi (col Close sample_bars) = NaN
  /\ snap_rsi (build_snapshot approx_sqrt "AAA" tt sample_bars) = NaN.
Proof. apply short_history_has_no_rsi. simpl. lia. Defined.

Lemma bollinger_bands_collapse_on_flat_window_witness :
  let close := map Fin ([QcZ 1] ++ repeat (QcZ 5) 20 ++ []) in
  nth_error (BB_Mid close) 20 = Some (ofZ 5)
  /\ nth_error (BB_Upper approx_sqrt close) 20 = Some (ofZ 5)
  /\ nth_error (BB_Lower approx_sqrt close) 20 = Some (ofZ 5).
Proof.
  apply (@bollinger_bands_collapse_on_flat_window approx_sqrt (QcZ 5) [QcZ 1] []).
  apply Qc_is_canon. reflexivity.
Defined.

Lemma rsi_is_0_on_falling_window_witness :
  nth_error (gain (map Fin falling15)) 14 = Some (ofZ 0)
  /\ nth_error (rsi_series (map Fin falling15)) 14 = Some (ofZ 0).
Proof.
  apply rsi_is_0_on_falling_window.
  - simpl. lia.
  - intros j Hj. window_cases j.
  - exists 1%nat. split; [lia|]. reflexivity.
Defined.

Lemma rsi_rising_window_witness :
  nth_error (loss (map Fin rising15)) 14 = Some (ofZ 0)
  /\ nth_error (rsi_series (map Fin rising15)) 14 = Some (ofZ 100).
Proof.
  apply rsi_rising_window.
  - simpl. lia.
  - intros j Hj. window_cases j.
  - exists 1%nat. split; [lia|]. reflexivity.
Defined.

Lemma rsi_flat_window_witness :
  nth_error (loss (map Fin flat15)) 14 = Some (ofZ 0)
  /\ nth_error (rsi_series (map Fin flat15)) 14 = Some NaN.
Proof.
  apply rsi_flat_window.
  - simpl. lia.
  - intros j Hj. window_cases j.
Defined.

Lemma rsi_value_in_range_witness :
  fleb (ofZ 0) (nth 14 (rsi_series (map Fin rising15)) NaN) = true
  /\ fleb (nth 14 (rsi_series (map Fin rising15)) NaN) (ofZ 100) = true.
Proof.
  apply (@rsi_value_in_range rising15 14).
  - apply nth_error_nth'. vm_compute. lia.
  - vm_compute. reflexivity.
Defined.
